(** * CV-Analyzer: the application-decision pipeline of [backend/main.py]

    The development embeds the processing layer of the repository
    (extract, evaluate, decide, compose, notify) and states its
    specification over that embedding.

    Modelling conventions.
    - A Python [str] is a [string]: one [ascii] per code point, so the model
      covers the code points 0..255.  The character tables below ([\s], [\d],
      [\w], lower and upper case) are CPython's tables on that range.
    - [re.search] is a backtracking matcher over the pattern syntax the file
      uses; patterns are kept as the source's raw strings and compiled by
      [re_compile].
    - A Python exception is a value [Raise e] of the [outcome] type; the
      effects of the pipeline (temporary directories, the mail relay, the
      model client) are threaded through an explicit [sys] state. *)

From Stdlib Require Import Ascii String ZArith NArith Bool Lia DecimalString.
From stdpp Require Import gmap strings list fin_maps.

Local Open Scope Z_scope.

(* Let [simpl] compute string concatenation on a known first argument. *)
#[global] Arguments String.append !s1 s2 : simpl nomatch.

(* ===================================================================== *)
(** * Characters of a Python [str] *)
(* ===================================================================== *)

Module Chars.

Definition ord (c : ascii) : N := N_of_ascii c.

Definition in_range (lo hi : N) (c : ascii) : bool :=
  ((lo <=? ord c) && (ord c <=? hi))%N.

(** [\d]: the decimal digits (category Nd); on 0..255 these are [0-9]. *)
Definition is_decimal (c : ascii) : bool := in_range 48 57 c.

(** [\s]: [str.isspace]; TAB..CR, FS..US, space, NEL, NBSP. *)
Definition is_space (c : ascii) : bool :=
  in_range 9 13 c || in_range 28 32 c || (ord c =? 133)%N || (ord c =? 160)%N.

(** [str.isalnum] on one code point. *)
Definition is_alnum (c : ascii) : bool :=
  in_range 48 57 c || in_range 65 90 c || in_range 97 122 c
  || (ord c =? 170)%N || in_range 178 179 c || (ord c =? 181)%N
  || in_range 185 186 c || in_range 188 190 c
  || in_range 192 214 c || in_range 216 246 c || in_range 248 255 c.

(** [\w]: alphanumeric or underscore. *)
Definition is_word (c : ascii) : bool := is_alnum c || (ord c =? 95)%N.

(** [.] without DOTALL: anything but a line feed. *)
Definition is_linebreak (c : ascii) : bool := (ord c =? 10)%N.

(** Simple lower-case mapping, as used by IGNORECASE. *)
Definition to_lower (c : ascii) : ascii :=
  if in_range 65 90 c || in_range 192 214 c || in_range 216 222 c
  then ascii_of_N (ord c + 32) else c.

(** [str.upper] on one code point.  The three code points whose upper case
    leaves 0..255 (181, 223, 255) are left unchanged; [upper] is only ever
    applied to a captured ACCEPT/REJECT token (see [group_accept_reject]). *)
Definition to_upper (c : ascii) : ascii :=
  if in_range 97 122 c || in_range 224 246 c || in_range 248 254 c
  then ascii_of_N (ord c - 32) else c.

Fixpoint upper (s : string) : string :=
  match s with
  | EmptyString => EmptyString
  | String c s' => String (to_upper c) (upper s')
  end.

Definition digit_value (c : ascii) : Z := Z.of_N (ord c) - 48.

End Chars.

(* ===================================================================== *)
(** * Regular expressions: the fragment of [re] used by [main.py] *)
(* ===================================================================== *)

Module Re.
Import Chars.

(** One-character matchers. *)
Inductive charset : Type :=
| CLit (c : ascii)      (* a literal character *)
| CAny                  (* .  *)
| CSpace                (* \s *)
| CDigit.               (* \d *)

Inductive regex : Type :=
| REmpty
| RChar (cs : charset)
| RBoundary                     (* \b *)
| RSeq (r1 r2 : regex)
| RAlt (r1 r2 : regex)          (* r1|r2, r1 tried first *)
| ROpt (cs : charset)           (* x?  greedy *)
| RStar (cs : charset)          (* x*  greedy *)
| RPlus (cs : charset)          (* x+  greedy *)
| RLazyStar (cs : charset)      (* x*? lazy *)
| RGroup (r : regex).           (* ( r ), capturing group 1 *)

(** ** Pattern syntax *)

Inductive token : Type :=
| TChar (cs : charset) | TBound
| TOpen | TClose | TBar | TQuest | TStar | TPlus.

Fixpoint tokenize (p : string) : option (list token) :=
  match p with
  | EmptyString => Some []
  | String "\" (String c p') =>
      t ← (if Ascii.eqb c "s" then Some (TChar CSpace)
           else if Ascii.eqb c "d" then Some (TChar CDigit)
           else if Ascii.eqb c "b" then Some TBound
           else None);
      ts ← tokenize p';
      Some (t :: ts)
  | String c p' =>
      let t := if Ascii.eqb c "." then TChar CAny
               else if Ascii.eqb c "(" then TOpen
               else if Ascii.eqb c ")" then TClose
               else if Ascii.eqb c "|" then TBar
               else if Ascii.eqb c "?" then TQuest
               else if Ascii.eqb c "*" then TStar
               else if Ascii.eqb c "+" then TPlus
               else TChar (CLit c) in
      ts ← tokenize p';
      Some (t :: ts)
  end.

Fixpoint parse_alt (fuel : nat) (ts : list token) : option (regex * list token) :=
  match fuel with
  | O => None
  | S f =>
      match parse_seq f ts with
      | Some (r1, TBar :: ts') =>
          match parse_alt f ts' with
          | Some (r2, ts'') => Some (RAlt r1 r2, ts'')
          | None => None
          end
      | other => other
      end
  end
with parse_seq (fuel : nat) (ts : list token) : option (regex * list token) :=
  match fuel with
  | O => None
  | S f =>
      let continue (r : regex) (rest : list token) :=
        match parse_seq f rest with
        | Some (REmpty, rest') => Some (r, rest')
        | Some (r', rest') => Some (RSeq r r', rest')
        | None => None
        end in
      match ts with
      | [] => Some (REmpty, [])
      | TClose :: _ | TBar :: _ => Some (REmpty, ts)
      | TChar cs :: TStar :: TQuest :: rest => continue (RLazyStar cs) rest
      | TChar cs :: TStar :: rest => continue (RStar cs) rest
      | TChar cs :: TPlus :: rest => continue (RPlus cs) rest
      | TChar cs :: TQuest :: rest => continue (ROpt cs) rest
      | TChar cs :: rest => continue (RChar cs) rest
      | TBound :: rest => continue RBoundary rest
      | TOpen :: rest =>
          match parse_alt f rest with
          | Some (r, TClose :: rest') => continue (RGroup r) rest'
          | _ => None
          end
      | _ => None
      end
  end.

(** [re.compile] on the supported syntax; [None] for anything else. *)
Definition re_compile (p : string) : option regex :=
  match tokenize p with
  | Some ts =>
      match parse_alt (S (S (List.length ts))) ts with
      | Some (r, []) => Some r
      | _ => None
      end
  | None => None
  end.

(** ** Matching *)

(** The matcher state: the character before the current position, the text
    from the current position on, and the text captured by group 1. *)
Record mstate : Type := MState {
  prev : option ascii;
  rest : string;
  grp : option string
}.

Definition cs_match (ic : bool) (cs : charset) (x : ascii) : bool :=
  match cs with
  | CLit c => if ic then Ascii.eqb (to_lower x) (to_lower c) else Ascii.eqb x c
  | CAny => negb (is_linebreak x)
  | CSpace => is_space x
  | CDigit => is_decimal x
  end.

Definition word_before (p : option ascii) : bool :=
  match p with Some c => is_word c | None => false end.

Definition word_at (s : string) : bool :=
  match s with String c _ => is_word c | EmptyString => false end.

(** [\b]: the characters on the two sides differ in being word characters. *)
Definition at_boundary (p : option ascii) (s : string) : bool :=
  xorb (word_before p) (word_at s).

Fixpoint take (n : nat) (s : string) : string :=
  match n, s with
  | S n', String c s' => String c (take n' s')
  | _, _ => EmptyString
  end.

Section Matcher.
Context {R : Type}.
Variable ic : bool.     (* re.IGNORECASE *)

Definition orelse (a : option R) (b : unit -> option R) : option R :=
  match a with Some x => Some x | None => b tt end.

(** Greedy repetition: as many characters as possible first. *)
Fixpoint star_greedy (cs : charset) (p : option ascii) (s : string)
    (g : option string) (k : mstate -> option R) : option R :=
  match s with
  | String c s' =>
      if cs_match ic cs c
      then orelse (star_greedy cs (Some c) s' g k) (fun _ => k (MState p s g))
      else k (MState p s g)
  | EmptyString => k (MState p s g)
  end.

(** Lazy repetition: as few characters as possible first. *)
Fixpoint star_lazy (cs : charset) (p : option ascii) (s : string)
    (g : option string) (k : mstate -> option R) : option R :=
  orelse (k (MState p s g))
    (fun _ => match s with
              | String c s' =>
                  if cs_match ic cs c then star_lazy cs (Some c) s' g k else None
              | EmptyString => None
              end).

Fixpoint rmatch (r : regex) (st : mstate) (k : mstate -> option R) : option R :=
  match r with
  | REmpty => k st
  | RChar cs =>
      match rest st with
      | String c s' =>
          if cs_match ic cs c then k (MState (Some c) s' (grp st)) else None
      | EmptyString => None
      end
  | RBoundary => if at_boundary (prev st) (rest st) then k st else None
  | RSeq r1 r2 => rmatch r1 st (fun st' => rmatch r2 st' k)
  | RAlt r1 r2 => orelse (rmatch r1 st k) (fun _ => rmatch r2 st k)
  | ROpt cs =>
      match rest st with
      | String c s' =>
          if cs_match ic cs c
          then orelse (k (MState (Some c) s' (grp st))) (fun _ => k st)
          else k st
      | EmptyString => k st
      end
  | RStar cs => star_greedy cs (prev st) (rest st) (grp st) k
  | RPlus cs =>
      match rest st with
      | String c s' =>
          if cs_match ic cs c then star_greedy cs (Some c) s' (grp st) k else None
      | EmptyString => None
      end
  | RLazyStar cs => star_lazy cs (prev st) (rest st) (grp st) k
  | RGroup r' =>
      rmatch r' st (fun st' =>
        k (MState (prev st') (rest st')
             (Some (take (String.length (rest st) - String.length (rest st'))
                      (rest st)))))
  end.
End Matcher.

(** A match object: where the match starts and what group 1 captured. *)
Record match_obj : Type := Match {
  m_start : nat;
  m_group1 : option string
}.

(** Try the start positions from left to right. *)
Fixpoint search_from (ic : bool) (r : regex) (pos : nat) (p : option ascii)
    (s : string) : option match_obj :=
  match rmatch ic r (MState p s None) (fun st => Some (grp st)) with
  | Some g => Some (Match pos g)
  | None =>
      match s with
      | String c s' => search_from ic r (S pos) (Some c) s'
      | EmptyString => None
      end
  end.

(** [re.search(pattern, text, flags)] with [ic] for [re.IGNORECASE].  A
    pattern outside the supported syntax never arises: each pattern of
    [main.py] compiles (see [compile_pct_primary] and the lemmas after it). *)
Definition re_search (pattern : string) (text : string) (ic : bool)
  : option match_obj :=
  match re_compile pattern with
  | Some r => search_from ic r 0 None text
  | None => None
  end.

End Re.

(* ===================================================================== *)
(** * The Python runtime: exceptions, effects, values *)
(* ===================================================================== *)

Module Py.

(** An instance of [Exception]: its class name and [str(e)]. *)
Inductive exn : Type := Exn (cls : string) (msg : string).

Definition exn_str (e : exn) : string := match e with Exn _ m => m end.

(** A call either returns or raises. *)
Inductive outcome (A : Type) : Type :=
| Ret (a : A)
| Raise (e : exn).
Arguments Ret {A} a.
Arguments Raise {A} e.

#[global] Instance outcome_ret : MRet outcome := fun A a => Ret a.
#[global] Instance outcome_bind : MBind outcome := fun A B f m =>
  match m with Ret a => f a | Raise e => Raise e end.

(** Values stored in the result dict. *)
Inductive value : Type :=
| VBool (b : bool)
| VInt (z : Z)
| VStr (s : string).

(** Truth value of a [str]: false exactly for the empty string. *)
Definition truthy (s : string) : bool :=
  match s with EmptyString => false | String _ _ => true end.

(** Truth value of an environment variable read by [os.getenv]. *)
Definition truthy_opt (o : option string) : bool :=
  match o with Some s => truthy s | None => false end.

Fixpoint all_decimal (s : string) : bool :=
  match s with
  | EmptyString => true
  | String c s' => Chars.is_decimal c && all_decimal s'
  end.

Fixpoint int_of_digits_acc (acc : Z) (s : string) : Z :=
  match s with
  | EmptyString => acc
  | String c s' => int_of_digits_acc (10 * acc + Chars.digit_value c) s'
  end.

Definition int_of_digits (s : string) : Z := int_of_digits_acc 0 s.

(** The default of [sys.get_int_max_str_digits()]; [main.py] leaves it
    as it is. *)
Definition int_max_str_digits : nat := 4300.

(** The [ValueError] of [int] on a literal of [n] digits, [n] above the
    limit. *)
Definition digits_limit_error (n : nat) : exn :=
  Exn "ValueError"
    ("Exceeds the limit (4300 digits) for integer string conversion: value has "
     +:+ NilZero.string_of_uint (Nat.to_uint n)
     +:+ " digits; use sys.set_int_max_str_digits() to increase the limit").

(** [int(x)] for [x = m.group(1)].  [None] is a [TypeError]; a non-empty run
    of decimal digits is its value when it has at most [int_max_str_digits]
    digits (leading zeros count), and a [ValueError] when it has more.
    Every other string is modelled as a [ValueError]: [int] also accepts
    signs, blanks and underscores, which a [\d+] capture never contains
    ([group_digits]). *)
Definition py_int (x : option string) : outcome Z :=
  match x with
  | None => Raise (Exn "TypeError" "int() argument must be a string")
  | Some s =>
      if truthy s && all_decimal s then
        if (String.length s <=? int_max_str_digits)%nat
        then Ret (int_of_digits s)
        else Raise (digits_limit_error (String.length s))
      else Raise (Exn "ValueError" "invalid literal for int() with base 10")
  end.

(** [x.upper()] for [x = m.group(1)]. *)
Definition py_upper (x : option string) : outcome string :=
  match x with
  | None => Raise (Exn "AttributeError" "'NoneType' object has no attribute 'upper'")
  | Some s => Ret (Chars.upper s)
  end.

(** ** The world outside the process *)

Record message : Type := Message {
  msg_from : option string;
  msg_to : string;
  msg_subject : string;
  msg_body : string
}.

Inductive smtp_op : Type :=
| SmtpConnect (host : string) (port : Z)
| SmtpEhlo
| SmtpStarttls
| SmtpLogin (user password : string)
| SmtpSendMessage (m : message)
| SmtpQuit.

(** What [chain.invoke] hands back. *)
Inductive response : Type :=
| RespDict (d : gmap string string) (repr : string)   (* a dict, with its [str()] *)
| RespStr (s : string)
| RespOther (repr : string).         (* any other object, with its [str()] *)

Record uploaded_file : Type := Upload {
  name : string;
  getbuffer : string
}.

Inductive event : Type :=
| EvTmpCreate (d : nat)
| EvTmpCleanup (d : nat)
| EvFileWrite (path : string) (data : string)
| EvInvoke (cv_text job_description : string)
| EvCompose (subject body : string)
| EvSmtp (op : smtp_op).

(** The state the pipeline acts on: temporary directories that exist, and
    the trace of what was done, oldest first. *)
Record sys : Type := Sys {
  tmp_next : nat;
  tmp_live : gset nat;
  trace : list event
}.

Definition sys0 : sys := Sys 0 ∅ [].

(** The configuration read at import time and the behaviour of the external
    collaborators.  [None] from an operation means it went through; [Some e]
    that it raised [e]. *)
Record world : Type := World {
  EMAIL_SENDER : option string;
  EMAIL_PASSWORD : option string;
  SMTP_SERVER : string;
  SMTP_PORT : Z;
  open_wb : string -> option exn;
  PdfReader : string -> outcome (list (outcome string));
  chain_invoke : string -> string -> outcome response;
  smtp : nat -> smtp_op -> option exn
}.

(** Stateful computations that may raise. *)
Definition M (A : Type) : Type := sys -> sys * outcome A.

#[global] Instance M_ret : MRet M := fun A a s => (s, Ret a).
#[global] Instance M_bind : MBind M := fun A B f m s =>
  match m s with
  | (s', Ret a) => f a s'
  | (s', Raise e) => (s', Raise e)
  end.

Definition lift {A : Type} (o : outcome A) : M A := fun s => (s, o).

Definition emit (e : event) : M unit :=
  fun s => (Sys (tmp_next s) (tmp_live s) (trace s ++ [e]), Ret tt).

(** [try: body  except Exception as e: handler e]. *)
Definition try_except {A : Type} (body : M A) (handler : exn -> M A) : M A :=
  fun s =>
    match body s with
    | (s', Ret a) => (s', Ret a)
    | (s', Raise e) => handler e s'
    end.

Definition emails_sent (s : sys) : list message :=
  omap (fun e => match e with EvSmtp (SmtpSendMessage m) => Some m | _ => None end)
       (trace s).

Definition emails_composed (s : sys) : list (string * string) :=
  omap (fun e => match e with EvCompose sub b => Some (sub, b) | _ => None end)
       (trace s).

End Py.

(* ===================================================================== *)
(** * [backend/main.py] *)
(* ===================================================================== *)

Module Main.
Import Py Re.

(** ** [pdf_loader] *)

(** [tempfile.TemporaryDirectory()]: a fresh directory. *)
Definition TemporaryDirectory : M nat :=
  fun s =>
    let d := tmp_next s in
    (Sys (S d) ({[ d ]} ∪ tmp_live s) (trace s ++ [EvTmpCreate d]), Ret d).

(** [temp_dir.cleanup()]. *)
Definition cleanup (d : nat) : M unit :=
  fun s => (Sys (tmp_next s) (tmp_live s ∖ {[ d ]}) (trace s ++ [EvTmpCleanup d]), Ret tt).

Fixpoint string_of_digits (n : nat) (fuel : nat) : string :=
  match fuel with
  | O => EmptyString
  | S f =>
      let d := String (ascii_of_nat (48 + n mod 10)) EmptyString in
      if (n <? 10)%nat then d else string_of_digits (n / 10) f +:+ d
  end.

Definition tmp_name (d : nat) : string := "/tmp/tmp" +:+ string_of_digits d (S d).

Fixpoint ends_with_sep (s : string) : bool :=
  match s with
  | EmptyString => false
  | String c EmptyString => Ascii.eqb c "/"
  | String _ s' => ends_with_sep s'
  end.

(** [os.path.join(dir, file)] on POSIX: an absolute [file] replaces [dir];
    a separator is put between the two unless [dir] is empty or ends in one. *)
Definition path_join (dir file : string) : string :=
  match file with
  | String "/" _ => file
  | _ =>
      if truthy dir && negb (ends_with_sep dir) then dir +:+ "/" +:+ file
      else dir +:+ file
  end.

(** [text += page.extract_text()] over the pages, in page order. *)
Fixpoint extract_pages (pages : list (outcome string)) (text : string)
  : outcome string :=
  match pages with
  | [] => Ret text
  | page :: pages' =>
      match page with
      | Ret t => extract_pages pages' (text +:+ t)
      | Raise e => Raise e
      end
  end.

(** The directory is created first; the file is opened and written, the
    reader is built and the pages are read inside the [with] block; the
    explicit [cleanup] follows the block.  The reader is given the bytes that
    were written. *)
Definition pdf_loader (w : world) (pdf_file : uploaded_file) : M string :=
  temp_dir ← TemporaryDirectory;
  let tempfile_path := path_join (tmp_name temp_dir) (name pdf_file) in
  text ← (lift (match open_wb w tempfile_path with
                | None => Ret tt
                | Some e => Raise e
                end);;
          emit (EvFileWrite tempfile_path (getbuffer pdf_file));;
          pdf_reader ← lift (PdfReader w (getbuffer pdf_file));
          lift (extract_pages pdf_reader EmptyString));
  cleanup temp_dir;;
  mret text.

(** ** [analyz_match] *)

Definition match_percentage_pattern : string := "Match Percentage:?\s*(\d+)".

Definition alt_patterns : list string :=
  [ "Match Percentage:?\s*(\d+)%";
    "Match Percentage.*?(\d+)";
    "match.*?(\d+)%" ].

Definition recommendation_patterns : list string :=
  [ "Recommendation:?\s*(ACCEPT|REJECT)";
    "Recommendation:?\s*(Accept|Reject)";
    "Recommendation.*?(ACCEPT|REJECT)";
    "Recommendation.*?(Accept|Reject)" ].

Definition accept_word_pattern : string := "\baccept\b".

(** The [for pattern in alt_patterns] loop; [match_percentage] is 0 on entry. *)
Fixpoint alt_loop (patterns : list string) (response_text : string) : outcome Z :=
  match patterns with
  | [] => Ret 0
  | pattern :: patterns' =>
      match re_search pattern response_text true with
      | Some alt_match => py_int (m_group1 alt_match)
      | None => alt_loop patterns' response_text
      end
  end.

Definition parse_percentage (response_text : string) : outcome Z :=
  match re_search match_percentage_pattern response_text false with
  | Some m => py_int (m_group1 m)
  | None => alt_loop alt_patterns response_text
  end.

(** The [for pattern in recommendation_patterns] loop; [recommendation] is
    [None] on entry. *)
Fixpoint rec_loop (patterns : list string) (response_text : string)
  : outcome (option string) :=
  match patterns with
  | [] => Ret None
  | pattern :: patterns' =>
      match re_search pattern response_text true with
      | Some rec_match =>
          match py_upper (m_group1 rec_match) with
          | Ret u => Ret (Some u)
          | Raise e => Raise e
          end
      | None => rec_loop patterns' response_text
      end
  end.

Definition parse_recommendation (response_text : string) : outcome string :=
  recommendation ← rec_loop recommendation_patterns response_text;
  match recommendation with
  | Some r => Ret r
  | None =>
      match re_search accept_word_pattern response_text true with
      | Some _ => Ret "ACCEPT"
      | None => Ret "REJECT"
      end
  end.

(** Lines 86-131: from the response text to the returned triple. *)
Definition parse_response (response_text : string)
  : outcome (string * Z * string) :=
  match_percentage ← parse_percentage response_text;
  recommendation ← parse_recommendation response_text;
  Ret (response_text, match_percentage, recommendation).

(** Lines 77-84: the text of whatever the chain returned. *)
Definition response_text_of (response : response) : string :=
  match response with
  | RespDict d repr =>
      match d !! "text" with
      | Some t => t
      | None => repr
      end
  | RespStr s => s
  | RespOther repr => repr
  end.

(** Building the prompt, the client and the chain and invoking it are the
    one call [chain_invoke] of the world; the trace records it. *)
Definition analyz_match (w : world) (cv_text job_description : string)
  : M (string * Z * string) :=
  emit (EvInvoke cv_text job_description);;
  response ← lift (chain_invoke w cv_text job_description);
  lift (parse_response (response_text_of response)).

(** ** [email_content] *)

Definition email_content (applicant_name job_title : string) (is_match : bool)
  : string * string :=
  if is_match then
    let email_subject := "Congratulations! Your Application for " +:+ job_title in
    let email_body := "Dear " +:+ applicant_name +:+ ",

We are pleased to inform you that your CV has been reviewed and shows a strong match with our " +:+ job_title +:+ " position.
We would like to invite you to the next stage of our recruitment process.
Our team will contact you shortly with further details.

Before that you need to complete this MCQ based test.
MCQs.
1. What is the capital of France?
Option A: Paris
Option B: London
Option C: New York
Option D: Tokyo

Best regards,
Recruitment Team
" in
    (email_subject, email_body)
  else
    let email_subject := "Regarding your application for " +:+ job_title in
    let email_body := "Dear " +:+ applicant_name +:+ ",

Thank you for your interest in the " +:+ job_title +:+ " position.
After careful review of your application, we regret to inform you that we will not be moving forward with your candidacy at this time.
We appreciate your interest in our company and wish you the best in your job search.

Best regards,
Recruitment Team
" in
    (email_subject, email_body).

(** ** [send_email] *)

(** One operation on the relay: the [i]-th of the session. *)
Definition smtp_do (w : world) (i : nat) (op : smtp_op) : M unit :=
  match smtp w i op with
  | None => emit (EvSmtp op)
  | Some e => lift (Raise e)
  end.

(** [with ... as server: body]: leaving the block, by return or by exception,
    runs [exit]; an exception of [exit] replaces the one in flight. *)
Definition with_exit {A : Type} (body : M A) (exit : M unit) : M A :=
  fun s =>
    match body s with
    | (s', Ret a) =>
        match exit s' with
        | (s'', Ret _) => (s'', Ret a)
        | (s'', Raise e') => (s'', Raise e')
        end
    | (s', Raise e) =>
        match exit s' with
        | (s'', Ret _) => (s'', Raise e)
        | (s'', Raise e') => (s'', Raise e')
        end
    end.

(** The block under [with smtplib.SMTP(SMTP_SERVER, SMTP_PORT) as server]. *)
Definition smtp_body (w : world) (m : message) : M unit :=
  smtp_do w 1 SmtpEhlo;;
  smtp_do w 2 SmtpStarttls;;
  smtp_do w 3 SmtpEhlo;;
  (if truthy_opt (EMAIL_SENDER w) && truthy_opt (EMAIL_PASSWORD w)
   then smtp_do w 4 (SmtpLogin (default EmptyString (EMAIL_SENDER w))
                               (default EmptyString (EMAIL_PASSWORD w)))
   else mret tt);;
  smtp_do w 5 (SmtpSendMessage m).

(** Connecting happens in the constructor, before the block is entered;
    [server.__exit__] sends QUIT. *)
Definition smtp_session (w : world) (m : message) : M unit :=
  smtp_do w 0 (SmtpConnect (SMTP_SERVER w) (SMTP_PORT w));;
  with_exit (smtp_body w m) (smtp_do w 6 SmtpQuit).

Definition send_email (w : world) (recipient_email subject body : string)
  : M (bool * string) :=
  try_except
    (let message := Message (EMAIL_SENDER w) recipient_email subject body in
     smtp_session w message;;
     mret (true, "Email sent successfully!"))
    (fun e => mret (false, "Failed to send email: " +:+ exn_str e)).

(** ** [process_application] *)

Definition failure_result : gmap string value :=
  {[ "success" := VBool false;
     "message" := VStr "Failed to analyze the CV." ]}.

Definition success_result (applicant_name job_title : string)
    (match_percentage : Z) (is_match : bool) (email_success : bool)
    (email_message analysis_text : string) : gmap string value :=
  {[ "success" := VBool true;
     "applicant_name" := VStr applicant_name;
     "job_title" := VStr job_title;
     "match_percentage" := VInt match_percentage;
     "recommendation" := VStr (if is_match then "Accept" else "Reject");
     "email_sent" := VBool email_success;
     "email_message" := VStr email_message;
     "analysis" := VStr analysis_text ]}.

(** [match_percentage >= match_threshold or recommendation == "ACCEPT"]. *)
Definition is_match_of (match_percentage match_threshold : Z)
    (recommendation : string) : bool :=
  (match_threshold <=? match_percentage) || String.eqb recommendation "ACCEPT".

(** The trace records the call of [email_content] as an [EvCompose] event. *)
Definition process_application (w : world) (cv_file : uploaded_file)
    (applicant_name applicant_email job_title job_description : string)
    (match_threshold : Z) : M (gmap string value) :=
  cv_text ← pdf_loader w cv_file;
  '(analysis_text, match_percentage, recommendation) ←
     analyz_match w cv_text job_description;
  if negb (truthy analysis_text) then mret failure_result
  else
    let is_match := is_match_of match_percentage match_threshold recommendation in
    let '(email_subject, email_body) :=
      email_content applicant_name job_title is_match in
    emit (EvCompose email_subject email_body);;
    '(email_success, email_message) ←
       send_email w applicant_email email_subject email_body;
    mret (success_result applicant_name job_title match_percentage is_match
            email_success email_message analysis_text).

(** The default of the [match_threshold] parameter. *)
Definition default_match_threshold : Z := 70.

End Main.

(* ===================================================================== *)
(** * Specification-level definitions *)
(* ===================================================================== *)

Module Spec.
Import Chars Re Py Main.

(** ** What a pattern can match, as a relation between matcher states *)

(** Zero or more characters of [cs] consumed. *)
Inductive run (ic : bool) (cs : charset) : mstate -> mstate -> Prop :=
| run_stop st : run ic cs st st
| run_step st c s' st' :
    rest st = String c s' ->
    cs_match ic cs c = true ->
    run ic cs (MState (Some c) s' (grp st)) st' ->
    run ic cs st st'.

(** Exactly one character of [cs] consumed. *)
Definition one (ic : bool) (cs : charset) (st st' : mstate) : Prop :=
  exists c s', rest st = String c s' /\ cs_match ic cs c = true /\
               st' = MState (Some c) s' (grp st).

Fixpoint reach (ic : bool) (r : regex) (st st' : mstate) : Prop :=
  match r with
  | REmpty => st' = st
  | RChar cs => one ic cs st st'
  | RBoundary => at_boundary (prev st) (rest st) = true /\ st' = st
  | RSeq r1 r2 => exists mid, reach ic r1 st mid /\ reach ic r2 mid st'
  | RAlt r1 r2 => reach ic r1 st st' \/ reach ic r2 st st'
  | ROpt cs => one ic cs st st' \/ st' = st
  | RStar cs => run ic cs st st'
  | RPlus cs => exists mid, one ic cs st mid /\ run ic cs mid st'
  | RLazyStar cs => run ic cs st st'
  | RGroup r' =>
      exists mid, reach ic r' st mid /\
        st' = MState (prev mid) (rest mid)
                (Some (take (String.length (rest st) - String.length (rest mid))
                         (rest st)))
  end.

(** ** Literal words in patterns and texts *)

(** The pattern [w] followed by [tail], as [re_compile] builds it. *)
Fixpoint lits (w : string) (tail : regex) : regex :=
  match w with
  | EmptyString => tail
  | String c w' => RSeq (RChar (CLit c)) (lits w' tail)
  end.

(** The pattern of a non-empty word on its own. *)
Fixpoint word (w : string) : regex :=
  match w with
  | EmptyString => REmpty
  | String c EmptyString => RChar (CLit c)
  | String c w' => RSeq (RChar (CLit c)) (word w')
  end.

(** The text [u] is the word [w], character by character, up to case when
    [ic] is set. *)
Fixpoint lit_eq (ic : bool) (u w : string) : bool :=
  match u, w with
  | EmptyString, EmptyString => true
  | String x u', String y w' => cs_match ic (CLit y) x && lit_eq ic u' w'
  | _, _ => false
  end.

Definition k_group : mstate -> option (option string) := fun st => Some (grp st).

(** All 256 characters. *)
Definition all_ascii : list ascii := List.map ascii_of_nat (seq 0 256).

Definition is_ascii_letter (c : ascii) : bool :=
  in_range 65 90 c || in_range 97 122 c.

Fixpoint all_letters (s : string) : bool :=
  match s with
  | EmptyString => true
  | String c s' => is_ascii_letter c && all_letters s'
  end.

(** Every character of [s] is in the class [cs]. *)
Fixpoint all_cs (ic : bool) (cs : charset) (s : string) : bool :=
  match s with
  | EmptyString => true
  | String c s' => cs_match ic cs c && all_cs ic cs s'
  end.

(** ** The patterns of [analyz_match], compiled *)

Definition re_pct_primary : regex :=
  lits "Match Percentage"
    (RSeq (ROpt (CLit ":")) (RSeq (RStar CSpace) (RGroup (RPlus CDigit)))).

Definition re_pct_sign : regex :=
  lits "Match Percentage"
    (RSeq (ROpt (CLit ":"))
       (RSeq (RStar CSpace) (RSeq (RGroup (RPlus CDigit)) (RChar (CLit "%"))))).

Definition re_pct_loose : regex :=
  lits "Match Percentage" (RSeq (RLazyStar CAny) (RGroup (RPlus CDigit))).

Definition re_pct_match : regex :=
  lits "match"
    (RSeq (RLazyStar CAny) (RSeq (RGroup (RPlus CDigit)) (RChar (CLit "%")))).

Definition re_rec_tight (a b : string) : regex :=
  lits "Recommendation"
    (RSeq (ROpt (CLit ":")) (RSeq (RStar CSpace) (RGroup (RAlt (word a) (word b))))).

Definition re_rec_loose (a b : string) : regex :=
  lits "Recommendation" (RSeq (RLazyStar CAny) (RGroup (RAlt (word a) (word b)))).

Definition re_accept : regex := RSeq RBoundary (lits "accept" RBoundary).

(** Group 1 of the state is a non-empty run of decimal digits. *)
Definition digits_captured (st : mstate) : Prop :=
  exists ds, grp st = Some ds /\ truthy ds = true /\ all_decimal ds = true.

(** Group 1 of the state reads ACCEPT or REJECT once in upper case. *)
Definition verdict_captured (st : mstate) : Prop :=
  exists g, grp st = Some g /\ (upper g = "ACCEPT" \/ upper g = "REJECT").

(** ** Words in a text *)

(** Equality of two strings up to case. *)
Fixpoint ci_eq (a b : string) : bool :=
  match a, b with
  | EmptyString, EmptyString => true
  | String x a', String y b' => Ascii.eqb (to_lower x) (to_lower y) && ci_eq a' b'
  | _, _ => false
  end.

Fixpoint last_char (p : option ascii) (s : string) : option ascii :=
  match s with
  | EmptyString => p
  | String c s' => last_char (Some c) s'
  end.

(** The text holds the word [accept], in any case, with no word character
    directly before or after it. *)
Definition standalone_accept (text : string) : Prop :=
  exists pre w post,
    text = pre +:+ w +:+ post /\ ci_eq w "accept" = true /\
    word_before (last_char None pre) = false /\ word_at post = false.








(** ** The parsing rules in the words of the specification *)

(** The first pattern of the list that matches, with its match. *)
Fixpoint first_match (patterns : list (string * bool)) (text : string)
  : option match_obj :=
  match patterns with
  | [] => None
  | (pattern, ic) :: patterns' =>
      match re_search pattern text ic with
      | Some m => Some m
      | None => first_match patterns' text
      end
  end.

(** Primary pattern first (case-sensitive), then the three fallbacks. *)
Definition percentage_patterns : list (string * bool) :=
  [ ("Match Percentage:?\s*(\d+)", false);
    ("Match Percentage:?\s*(\d+)%", true);
    ("Match Percentage.*?(\d+)", true);
    ("match.*?(\d+)%", true) ].

Definition labeled_recommendation_patterns : list (string * bool) :=
  [ ("Recommendation:?\s*(ACCEPT|REJECT)", true);
    ("Recommendation:?\s*(Accept|Reject)", true);
    ("Recommendation.*?(ACCEPT|REJECT)", true);
    ("Recommendation.*?(Accept|Reject)", true) ].

(** The number of digits the first matching percentage pattern captures,
    0 when none matches. *)
Definition captured_digits (text : string) : nat :=
  match first_match percentage_patterns text with
  | Some m => String.length (default EmptyString (m_group1 m))
  | None => 0
  end.

(** ** Runs of the pipeline *)

(** The temporary directories of a state were all handed out by it. *)
Definition tmp_ok (s : sys) : Prop :=
  forall d, d ∈ tmp_live s -> (d < tmp_next s)%nat.


(** The state once [email_content] has returned. *)
Definition composed (s : sys) (subject body : string) : sys :=
  Sys (tmp_next s) (tmp_live s) (trace s ++ [EvCompose subject body]).

(** Nothing was composed or sent between two states. *)
Definition no_email (s s' : sys) : Prop :=
  emails_composed s' = emails_composed s /\ emails_sent s' = emails_sent s.

(** The trace only grows. *)
Definition extends (s s' : sys) (evs : list event) : Prop :=
  trace s' = trace s ++ evs.

(** Whatever was sent in a session is the message it was given. *)
Definition sent_only (m : message) (s s' : sys) : Prop :=
  exists ms, emails_sent s' = emails_sent s ++ ms /\ Forall (eq m) ms.

End Spec.

(* ===================================================================== *)
(** * Concrete worlds and submissions *)
(* ===================================================================== *)

Module Scenario.
Import Py Main.

Definition cv_file : uploaded_file := Upload "cv.pdf" "%PDF-1.4 ...".

Definition cv_pages : list (outcome string) :=
  [Ret "Python, SQL, "; Ret "5 years experience"].

Definition model_answer : string :=
  "- Match Percentage: 88
- Matching Skills: Python, SQL
- Recommendation: ACCEPT".

(** Everything works: the PDF parses, the model answers, the relay accepts. *)
Definition world_ok : world :=
  World None None "localhost" 1025
    (fun _ => None)
    (fun _ => Ret cv_pages)
    (fun _ _ => Ret (RespDict {[ "text" := model_answer ]} "{'text': ...}"))
    (fun _ _ => None).

(** The uploaded bytes are not a PDF. *)
Definition world_bad_pdf : world :=
  World None None "localhost" 1025
    (fun _ => None)
    (fun _ => Raise (Exn "PdfReadError" "EOF marker not found"))
    (fun _ _ => Ret (RespStr model_answer))
    (fun _ _ => None).

(** The model cannot be reached. *)
Definition world_model_down : world :=
  World None None "localhost" 1025
    (fun _ => None)
    (fun _ => Ret cv_pages)
    (fun _ _ => Raise (Exn "APIConnectionError" "Connection error."))
    (fun _ _ => None).

(** The model answers with the text [answer]. *)
Definition world_answer (answer : string) : world :=
  World None None "localhost" 1025
    (fun _ => None)
    (fun _ => Ret cv_pages)
    (fun _ _ => Ret (RespStr answer))
    (fun _ _ => None).

(** Nothing listens on the relay's port. *)
Definition world_relay_down : world :=
  World None None "localhost" 1025
    (fun _ => None)
    (fun _ => Ret cv_pages)
    (fun _ _ => Ret (RespStr model_answer))
    (fun i _ => match i with
                | O => Some (Exn "ConnectionRefusedError" "[Errno 111] Connection refused")
                | _ => None
                end).

(** The model answers with [answer]; the relay is down. *)
Definition world_answer_relay_down (answer : string) : world :=
  World None None "localhost" 1025
    (fun _ => None)
    (fun _ => Ret cv_pages)
    (fun _ _ => Ret (RespStr answer))
    (fun i _ => match i with
                | O => Some (Exn "ConnectionRefusedError" "[Errno 111] Connection refused")
                | _ => None
                end).



Definition run (w : world) (match_threshold : Z) : sys * outcome (gmap string value) :=
  process_application w cv_file "Ada" "ada@example.org" "Data Engineer"
    "Python, SQL, 3+ years" match_threshold sys0.

End Scenario.
(* ===================================================================== *)
(** * The matcher against the matching relation *)
(* ===================================================================== *)

Module MatcherFacts.
Import Chars Re Spec.

Lemma mstate_eta (st : mstate) : MState (prev st) (rest st) (grp st) = st.
Proof. by destruct st. Qed.

Section Facts.
Context {R : Type}.
Variable ic : bool.

Lemma star_greedy_sound cs s : forall p g (k : mstate -> option R) res,
  star_greedy ic cs p s g k = Some res ->
  exists st', run ic cs (MState p s g) st' /\ k st' = Some res.
Proof.
  induction s as [|c s' IH]; intros p g k res H; simpl in H.
  - eexists; split; [apply run_stop | exact H].
  - destruct (cs_match ic cs c) eqn:Hc.
    + unfold orelse in H.
      destruct (star_greedy ic cs (Some c) s' g k) as [r|] eqn:Hrec.
      * inversion H; subst r.
        destruct (IH _ _ _ _ Hrec) as (st' & Hrun & Hk).
        exists st'; split; [|exact Hk].
        eapply run_step; [reflexivity | exact Hc | exact Hrun].
      * eexists; split; [apply run_stop | exact H].
    + eexists; split; [apply run_stop | exact H].
Qed.

Lemma star_greedy_complete cs st st' :
  run ic cs st st' ->
  forall k : mstate -> option R, is_Some (k st') ->
  is_Some (star_greedy ic cs (prev st) (rest st) (grp st) k).
Proof.
  induction 1 as [st | st c s' st' Hrest Hc Hrun IH]; intros k Hk.
  - destruct st as [p s g]; simpl. destruct s as [|c s']; simpl; [exact Hk|].
    destruct (cs_match ic cs c); [|exact Hk].
    unfold orelse. destruct (star_greedy ic cs (Some c) s' g k); [eauto | exact Hk].
  - rewrite Hrest. simpl. rewrite Hc. unfold orelse.
    specialize (IH k Hk). simpl in IH.
    destruct (star_greedy ic cs (Some c) s' (grp st) k); [eauto|].
    by destruct IH.
Qed.

Lemma star_lazy_sound cs s : forall p g (k : mstate -> option R) res,
  star_lazy ic cs p s g k = Some res ->
  exists st', run ic cs (MState p s g) st' /\ k st' = Some res.
Proof.
  induction s as [|c s' IH]; intros p g k res H; simpl in H; unfold orelse in H.
  - destruct (k (MState p EmptyString g)) eqn:Hk; [|discriminate].
    eexists; split; [apply run_stop | by rewrite Hk].
  - destruct (k (MState p (String c s') g)) eqn:Hk.
    + eexists; split; [apply run_stop | by rewrite Hk].
    + destruct (cs_match ic cs c) eqn:Hc; [|discriminate].
      destruct (IH _ _ _ _ H) as (st' & Hrun & Hk').
      exists st'; split; [|exact Hk'].
      eapply run_step; [reflexivity | exact Hc | exact Hrun].
Qed.

Lemma star_lazy_complete cs st st' :
  run ic cs st st' ->
  forall k : mstate -> option R, is_Some (k st') ->
  is_Some (star_lazy ic cs (prev st) (rest st) (grp st) k).
Proof.
  induction 1 as [st | st c s' st' Hrest Hc Hrun IH]; intros k Hk.
  - destruct st as [p s g]; simpl. destruct s as [|c s']; simpl; unfold orelse.
    + destruct (k (MState p EmptyString g)); [eauto | by destruct Hk].
    + destruct (k (MState p (String c s') g)); [eauto | by destruct Hk].
  - rewrite Hrest. simpl. unfold orelse.
    destruct (k (MState (prev st) (String c s') (grp st))); [eauto|].
    rewrite Hc. exact (IH k Hk).
Qed.

Lemma rmatch_sound r : forall st (k : mstate -> option R) res,
  rmatch ic r st k = Some res ->
  exists st', reach ic r st st' /\ k st' = Some res.
Proof.
  induction r as [|cs| |r1 IH1 r2 IH2|r1 IH1 r2 IH2|cs|cs|cs|cs|r' IH];
    intros st k res H; simpl in H.
  - by exists st.
  - destruct (rest st) as [|c s'] eqn:Hrest; [discriminate|].
    destruct (cs_match ic cs c) eqn:Hc; [|discriminate].
    eexists; split; [|exact H]. by exists c, s'.
  - destruct (at_boundary (prev st) (rest st)) eqn:Hb; [|discriminate].
    by exists st.
  - destruct (IH1 _ _ _ H) as (mid & Hmid & H2).
    destruct (IH2 _ _ _ H2) as (st' & Hst' & Hk).
    exists st'; split; [|exact Hk]. by exists mid.
  - unfold orelse in H. destruct (rmatch ic r1 st k) as [x|] eqn:H1.
    + inversion H; subst x. destruct (IH1 _ _ _ H1) as (st' & ? & ?).
      exists st'; split; [by left | done].
    + destruct (IH2 _ _ _ H) as (st' & ? & ?).
      exists st'; split; [by right | done].
  - destruct (rest st) as [|c s'] eqn:Hrest; [by exists st; split; [right|]|].
    destruct (cs_match ic cs c) eqn:Hc; [|by exists st; split; [right|]].
    unfold orelse in H.
    destruct (k (MState (Some c) s' (grp st))) as [x|] eqn:Hk.
    + inversion H; subst x. eexists; split; [|exact Hk]. left. by exists c, s'.
    + by exists st; split; [right|].
  - destruct (star_greedy_sound _ _ _ _ _ _ H) as (st' & Hrun & Hk).
    rewrite mstate_eta in Hrun. by exists st'.
  - destruct (rest st) as [|c s'] eqn:Hrest; [discriminate|].
    destruct (cs_match ic cs c) eqn:Hc; [|discriminate].
    destruct (star_greedy_sound _ _ _ _ _ _ H) as (st' & Hrun & Hk).
    exists st'; split; [|exact Hk].
    exists (MState (Some c) s' (grp st)); split; [by exists c, s' | exact Hrun].
  - destruct (star_lazy_sound _ _ _ _ _ _ H) as (st' & Hrun & Hk).
    rewrite mstate_eta in Hrun. by exists st'.
  - destruct (IH _ _ _ H) as (mid & Hmid & Hk).
    eexists; split; [|exact Hk]. by exists mid.
Qed.

Lemma rmatch_complete r : forall st st' (k : mstate -> option R),
  reach ic r st st' -> is_Some (k st') -> is_Some (rmatch ic r st k).
Proof.
  induction r as [|cs| |r1 IH1 r2 IH2|r1 IH1 r2 IH2|cs|cs|cs|cs|r' IH];
    intros st st' k Hr Hk; simpl in Hr |- *.
  - by subst st'.
  - destruct Hr as (c & s' & Hrest & Hc & ->). by rewrite Hrest, Hc.
  - destruct Hr as [Hb ->]. by rewrite Hb.
  - destruct Hr as (mid & H1 & H2).
    eapply IH1; [exact H1|]. eapply IH2; [exact H2 | exact Hk].
  - unfold orelse. destruct Hr as [H1|H2].
    + specialize (IH1 _ _ _ H1 Hk). destruct (rmatch ic r1 st k); [eauto|by destruct IH1].
    + destruct (rmatch ic r1 st k); [eauto|]. by eapply IH2.
  - destruct Hr as [(c & s' & Hrest & Hc & ->)| ->].
    + rewrite Hrest, Hc. unfold orelse.
      destruct (k (MState (Some c) s' (grp st))); [eauto | by destruct Hk].
    + destruct (rest st) as [|c s']; [done|].
      destruct (cs_match ic cs c); [|done].
      unfold orelse. by destruct (k (MState (Some c) s' (grp st))); [eauto|].
  - by eapply star_greedy_complete.
  - destruct Hr as (mid & (c & s' & Hrest & Hc & ->) & Hrun).
    rewrite Hrest, Hc. exact (star_greedy_complete _ _ _ Hrun k Hk).
  - by eapply star_lazy_complete.
  - destruct Hr as (mid & Hmid & ->). by eapply IH.
Qed.

Lemma rmatch_None_iff r st (k : mstate -> option R) :
  rmatch ic r st k = None <->
  forall st', reach ic r st st' -> k st' = None.
Proof.
  split.
  - intros H st' Hr. destruct (k st') eqn:Hk; [|done].
    assert (is_Some (rmatch ic r st k)) as [x Hx]
      by (eapply rmatch_complete; [exact Hr | by rewrite Hk]).
    congruence.
  - intros H. destruct (rmatch ic r st k) eqn:Hm; [|done].
    destruct (rmatch_sound _ _ _ _ Hm) as (st' & Hr & Hk).
    rewrite (H _ Hr) in Hk. discriminate.
Qed.
End Facts.

End MatcherFacts.
(* ===================================================================== *)
(** * Strings and characters *)
(* ===================================================================== *)

Module StringFacts.
Import Chars Re Py Spec.

Lemma sapp_nil_r (s : string) : s +:+ EmptyString = s.
Proof. induction s as [|c s IH]; simpl; [done | by rewrite IH]. Qed.


Lemma slength_app (a b : string) :
  String.length (a +:+ b) = (String.length a + String.length b)%nat.
Proof. induction a as [|x a IH]; simpl; [done | by rewrite IH]. Qed.

Lemma take_app (a b : string) :
  take (String.length (a +:+ b) - String.length b) (a +:+ b) = a.
Proof.
  rewrite slength_app.
  replace (String.length a + String.length b - String.length b)%nat
    with (String.length a) by lia.
  induction a as [|x a IH]; simpl; [by destruct b | by rewrite IH].
Qed.

Lemma last_char_app (p : option ascii) (a b : string) :
  last_char p (a +:+ b) = last_char (last_char p a) b.
Proof. revert p; induction a as [|x a IH]; intros p; simpl; [done | apply IH]. Qed.

(** Every character is one of the 256. *)
Lemma in_all_ascii (c : ascii) : In c all_ascii.
Proof.
  unfold all_ascii. rewrite <- (ascii_nat_embedding c).
  apply in_map, in_seq. pose proof (nat_ascii_bounded c). lia.
Qed.

Lemma ascii_forall (P : ascii -> bool) :
  forallb P all_ascii = true -> forall c, P c = true.
Proof.
  intros H c. rewrite forallb_forall in H. apply H, in_all_ascii.
Qed.

Lemma ascii_forall2 (P : ascii -> ascii -> bool) :
  forallb (fun x => forallb (P x) all_ascii) all_ascii = true ->
  forall x y, P x y = true.
Proof.
  intros H x y.
  exact (ascii_forall _ (ascii_forall (fun x => forallb (P x) all_ascii) H x) y).
Qed.

(** A character that equals an ASCII letter up to case has that letter's
    upper case. *)
Lemma to_upper_of_ci (x y : ascii) :
  is_ascii_letter y = true ->
  Ascii.eqb (to_lower x) (to_lower y) = true ->
  to_upper x = to_upper y.
Proof.
  intros Hy Hxy.
  pose proof (ascii_forall2
    (fun x y => implb (is_ascii_letter y && Ascii.eqb (to_lower x) (to_lower y))
                      (Ascii.eqb (to_upper x) (to_upper y)))
    ltac:(vm_compute; reflexivity) x y) as H.
  simpl in H. rewrite Hy, Hxy in H. simpl in H. by apply Ascii.eqb_eq.
Qed.

Lemma letter_is_word (x y : ascii) :
  is_ascii_letter y = true ->
  Ascii.eqb (to_lower x) (to_lower y) = true ->
  is_word x = true.
Proof.
  intros Hy Hxy.
  pose proof (ascii_forall2
    (fun x y => implb (is_ascii_letter y && Ascii.eqb (to_lower x) (to_lower y))
                      (is_word x))
    ltac:(vm_compute; reflexivity) x y) as H.
  simpl in H. by rewrite Hy, Hxy in H.
Qed.

Lemma lit_eq_ci (u w : string) : lit_eq true u w = ci_eq u w.
Proof.
  revert w; induction u as [|x u IH]; intros [|y w]; simpl; try done.
  by rewrite IH.
Qed.


Lemma lit_eq_length ic (u w : string) :
  lit_eq ic u w = true -> String.length u = String.length w.
Proof.
  revert w; induction u as [|x u IH]; intros [|y w]; simpl; try done.
  rewrite andb_true_iff. intros [_ H]. by rewrite (IH _ H).
Qed.

Lemma upper_of_ci (u w : string) :
  all_letters w = true -> ci_eq u w = true -> upper u = upper w.
Proof.
  revert w; induction u as [|x u IH]; intros [|y w]; simpl; try done.
  rewrite !andb_true_iff. intros [Hy Hw] [Hxy Huw].
  by rewrite (to_upper_of_ci _ _ Hy Hxy), (IH _ Hw Huw).
Qed.

Lemma digit_value_range (c : ascii) :
  is_decimal c = true -> 0 <= digit_value c <= 9.
Proof.
  intros Hc.
  pose proof (ascii_forall
    (fun c => implb (is_decimal c)
                ((0 <=? digit_value c) && (digit_value c <=? 9)))
    ltac:(vm_compute; reflexivity) c) as H.
  simpl in H. rewrite Hc in H. simpl in H.
  apply andb_true_iff in H as [H1 H2]. lia.
Qed.

Lemma int_of_digits_acc_nonneg (s : string) : forall acc,
  0 <= acc -> all_decimal s = true -> acc <= int_of_digits_acc acc s.
Proof.
  induction s as [|c s IH]; intros acc Hacc Hs; simpl in *; [lia|].
  apply andb_true_iff in Hs as [Hc Hs].
  pose proof (digit_value_range c Hc).
  specialize (IH (10 * acc + digit_value c) ltac:(lia) Hs). lia.
Qed.

Lemma int_of_digits_nonneg (s : string) :
  all_decimal s = true -> 0 <= int_of_digits s.
Proof. intros H. by apply (int_of_digits_acc_nonneg s 0). Qed.



End StringFacts.
(* ===================================================================== *)
(** * Searching *)
(* ===================================================================== *)

Module SearchFacts.
Import Chars Re Py Spec MatcherFacts StringFacts.

#[local] Arguments cs_match : simpl never.


Lemma search_from_Some ic r (s : string) : forall pos p m,
  search_from ic r pos p s = Some m ->
  exists u s2,
    s = u +:+ s2 /\ m_start m = (pos + String.length u)%nat /\
    rmatch ic r (MState (last_char p u) s2 None) k_group = Some (m_group1 m) /\
    (forall u' v, u = u' +:+ v -> v <> EmptyString ->
       rmatch ic r (MState (last_char p u') (v +:+ s2) None) k_group = None).
Proof.
  induction s as [|c s IH]; intros pos p m H; simpl in H.
  - destruct (rmatch ic r (MState p EmptyString None) _) as [g|] eqn:Hm; [|discriminate].
    inversion H; subst m. exists EmptyString, EmptyString. simpl. repeat split; [lia | done |].
    intros [|] v; simpl; [intros <-; done | discriminate].
  - destruct (rmatch ic r (MState p (String c s) None) _) as [g|] eqn:Hm.
    + inversion H; subst m. exists EmptyString, (String c s). simpl.
      repeat split; [lia | done |].
      intros [|] v; simpl; [intros <-; done | discriminate].
    + destruct (IH _ _ _ H) as (u & s2 & -> & Hpos & Hmatch & Hfirst).
      exists (String c u), s2. simpl. repeat split; [lia | done |].
      intros [|x u'] v; simpl.
      * intros <- _. exact Hm.
      * intros [= <- ->] Hv. by apply Hfirst.
Qed.

Lemma search_from_None ic r (s : string) : forall pos p,
  search_from ic r pos p s = None <->
  (forall u s2, s = u +:+ s2 ->
     rmatch ic r (MState (last_char p u) s2 None) k_group = None).
Proof.
  induction s as [|c s IH]; intros pos p; simpl.
  - split.
    + intros H [|] s2; simpl; [intros <-|discriminate].
      by destruct (rmatch ic r (MState p EmptyString None) _).
    + intros H. specialize (H EmptyString EmptyString eq_refl). simpl in H.
      unfold k_group in H. by rewrite H.
  - split.
    + intros H u s2 Hu.
      destruct (rmatch ic r (MState p (String c s) None) _) as [g|] eqn:Hm;
        [discriminate|].
      destruct u as [|x u]; simpl in Hu |- *.
      * by subst s2.
      * injection Hu as <- ->. eapply IH; [exact H | done].
    + intros H. pose proof (H EmptyString (String c s) eq_refl) as H0. simpl in H0.
      unfold k_group in H0. rewrite H0.
      apply IH. intros u s2 ->. exact (H (String c u) s2 eq_refl).
Qed.

(** ** Literal words *)

Lemma reach_lits ic (w : string) tail : forall st st',
  reach ic (lits w tail) st st' <->
  exists u s', rest st = u +:+ s' /\ lit_eq ic u w = true /\
    reach ic tail (MState (last_char (prev st) u) s' (grp st)) st'.
Proof.
  induction w as [|y w IH]; intros st st'; simpl.
  - split.
    + intros H. exists EmptyString, (rest st). simpl. by rewrite mstate_eta.
    + intros ([|x u] & s' & Hrest & Hu & H); [|done].
      simpl in Hrest, H. by rewrite <- Hrest, mstate_eta in H.
  - split.
    + intros (mid & (c & s1 & Hrest & Hc & ->) & H).
      apply IH in H as (u & s' & Hs1 & Hu & H). simpl in Hs1, H.
      exists (String c u), s'. simpl. rewrite Hrest, Hs1, Hc, Hu. done.
    + intros ([|x u] & s' & Hrest & Hu & H); [done|].
      simpl in Hrest, Hu, H. apply andb_true_iff in Hu as [Hc Hu].
      exists (MState (Some x) (u +:+ s') (grp st)). split.
      * by exists x, (u +:+ s').
      * apply IH. by exists u, s'.
Qed.

Lemma word_lits (w : string) : w <> EmptyString ->
  forall ic st st', reach ic (word w) st st' <-> reach ic (lits w REmpty) st st'.
Proof.
  induction w as [|y w IH]; [done|]. intros _ ic st st'.
  destruct w as [|z w].
  - simpl. split.
    + intros H. by exists st'.
    + by intros (mid & H & ->).
  - change (word (String y (String z w)))
      with (RSeq (RChar (CLit y)) (word (String z w))).
    change (lits (String y (String z w)) REmpty)
      with (RSeq (RChar (CLit y)) (lits (String z w) REmpty)).
    simpl reach at 1. split; intros (mid & H1 & H2); exists mid; split; try done;
      by apply (IH ltac:(done)).
Qed.

Lemma reach_word ic (w : string) st st' : w <> EmptyString ->
  reach ic (word w) st st' <->
  exists u, rest st = u +:+ rest st' /\ lit_eq ic u w = true /\
    prev st' = last_char (prev st) u /\ grp st' = grp st.
Proof.
  intros Hw. rewrite (word_lits w Hw), reach_lits. simpl. split.
  - intros (u & s' & Hrest & Hu & ->). by exists u.
  - intros (u & Hrest & Hu & Hp & Hg). exists u, (rest st').
    repeat split; try done. rewrite <- Hp, <- Hg. by rewrite mstate_eta.
Qed.

(** ** Runs of one class of characters *)

Lemma run_inv ic cs st st' :
  run ic cs st st' ->
  exists u, rest st = u +:+ rest st' /\ all_cs ic cs u = true /\
    prev st' = last_char (prev st) u /\ grp st' = grp st.
Proof.
  induction 1 as [st | st c s' st' Hrest Hc Hrun (u & Hu & Hall & Hp & Hg)].
  - by exists EmptyString.
  - exists (String c u). simpl in *. by rewrite Hrest, Hu, Hc, Hall.
Qed.

Lemma run_intro ic cs (u : string) : forall p s g,
  all_cs ic cs u = true ->
  run ic cs (MState p (u +:+ s) g) (MState (last_char p u) s g).
Proof.
  induction u as [|c u IH]; intros p s g H; simpl in *.
  - apply run_stop.
  - apply andb_true_iff in H as [Hc Hu].
    eapply run_step; [done | exact Hc | apply IH, Hu].
Qed.

(** ** A capture is no longer than the text *)






End SearchFacts.
(* ===================================================================== *)
(** * The patterns of [analyz_match] *)
(* ===================================================================== *)

Module PatternFacts.
Import Chars Re Py Main Spec MatcherFacts StringFacts SearchFacts.

#[local] Arguments cs_match : simpl never.

Lemma compile_pct_primary : re_compile match_percentage_pattern = Some re_pct_primary.
Proof. reflexivity. Qed.

Lemma compile_pct_sign : re_compile "Match Percentage:?\s*(\d+)%" = Some re_pct_sign.
Proof. reflexivity. Qed.

Lemma compile_pct_loose : re_compile "Match Percentage.*?(\d+)" = Some re_pct_loose.
Proof. reflexivity. Qed.

Lemma compile_pct_match : re_compile "match.*?(\d+)%" = Some re_pct_match.
Proof. reflexivity. Qed.

Lemma compile_rec_1 :
  re_compile "Recommendation:?\s*(ACCEPT|REJECT)" = Some (re_rec_tight "ACCEPT" "REJECT").
Proof. reflexivity. Qed.

Lemma compile_rec_2 :
  re_compile "Recommendation:?\s*(Accept|Reject)" = Some (re_rec_tight "Accept" "Reject").
Proof. reflexivity. Qed.

Lemma compile_rec_3 :
  re_compile "Recommendation.*?(ACCEPT|REJECT)" = Some (re_rec_loose "ACCEPT" "REJECT").
Proof. reflexivity. Qed.

Lemma compile_rec_4 :
  re_compile "Recommendation.*?(Accept|Reject)" = Some (re_rec_loose "Accept" "Reject").
Proof. reflexivity. Qed.

Lemma compile_accept : re_compile accept_word_pattern = Some re_accept.
Proof. reflexivity. Qed.

(** ** What the last part of a pattern establishes *)

Lemma ends_seq ic r1 r2 (P : mstate -> Prop) :
  (forall st st', reach ic r2 st st' -> P st') ->
  forall st st', reach ic (RSeq r1 r2) st st' -> P st'.
Proof. intros H st st' (mid & _ & H2). by eapply H. Qed.

Lemma ends_lits ic (w : string) tail (P : mstate -> Prop) :
  (forall st st', reach ic tail st st' -> P st') ->
  forall st st', reach ic (lits w tail) st st' -> P st'.
Proof.
  intros H st st' Hr. apply reach_lits in Hr as (u & s' & _ & _ & Hr). by eapply H.
Qed.

Lemma all_cs_digit ic (u : string) : all_cs ic CDigit u = all_decimal u.
Proof. induction u as [|c u IH]; simpl; [done | by rewrite IH]. Qed.

Lemma reach_group_digits ic st st' :
  reach ic (RGroup (RPlus CDigit)) st st' ->
  exists ds, rest st = ds +:+ rest st' /\ truthy ds = true /\
    all_decimal ds = true /\ grp st' = Some ds.
Proof.
  intros (mid & (m1 & (c & s1 & Hrest & Hc & ->) & Hrun) & ->).
  apply run_inv in Hrun as (u & Hu & Hall & _ & _). simpl in Hu.
  exists (String c u). simpl. rewrite all_cs_digit in Hall.
  unfold cs_match in Hc. rewrite Hc, Hall, Hrest, Hu.
  repeat split. f_equal.
  change (String c (u +:+ rest mid)) with (String c u +:+ rest mid).
  apply take_app.
Qed.

Lemma ends_group_digits ic st st' :
  reach ic (RGroup (RPlus CDigit)) st st' -> digits_captured st'.
Proof.
  intros H. apply reach_group_digits in H as (ds & _ & ? & ? & ?). by exists ds.
Qed.

Lemma ends_group_digits_sign ic st st' :
  reach ic (RSeq (RGroup (RPlus CDigit)) (RChar (CLit "%"))) st st' ->
  digits_captured st'.
Proof.
  intros (mid & H & (c & s' & _ & _ & ->)).
  apply ends_group_digits in H as (ds & ? & ? & ?). by exists ds.
Qed.

Lemma pct_primary_digits ic st st' :
  reach ic re_pct_primary st st' -> digits_captured st'.
Proof.
  apply ends_lits, ends_seq, ends_seq. apply ends_group_digits.
Qed.

Lemma pct_sign_digits ic st st' :
  reach ic re_pct_sign st st' -> digits_captured st'.
Proof.
  apply ends_lits, ends_seq, ends_seq. apply ends_group_digits_sign.
Qed.

Lemma pct_loose_digits ic st st' :
  reach ic re_pct_loose st st' -> digits_captured st'.
Proof. apply ends_lits, ends_seq. apply ends_group_digits. Qed.

Lemma pct_match_digits ic st st' :
  reach ic re_pct_match st st' -> digits_captured st'.
Proof. apply ends_lits, ends_seq. apply ends_group_digits_sign. Qed.

Lemma reach_group_verdict (a b : string) st st' :
  a <> EmptyString -> b <> EmptyString ->
  reach true (RGroup (RAlt (word a) (word b))) st st' ->
  exists g, rest st = g +:+ rest st' /\ grp st' = Some g /\
    (ci_eq g a = true \/ ci_eq g b = true).
Proof.
  intros Ha Hb (mid & H & ->). simpl.
  assert (exists u, rest st = u +:+ rest mid /\
            (ci_eq u a = true \/ ci_eq u b = true)) as (u & Hu & Hab).
  { destruct H as [H|H]; apply reach_word in H as (u & Hu & Heq & _); try done;
      rewrite lit_eq_ci in Heq; exists u; auto. }
  exists u. rewrite Hu, take_app. done.
Qed.

Lemma ends_group_verdict (a b : string) st st' :
  a <> EmptyString -> b <> EmptyString ->
  all_letters a = true -> all_letters b = true ->
  upper a = "ACCEPT" -> upper b = "REJECT" ->
  reach true (RGroup (RAlt (word a) (word b))) st st' -> verdict_captured st'.
Proof.
  intros Ha Hb La Lb Ua Ub H.
  apply reach_group_verdict in H as (g & _ & Hg & Hab); try done.
  exists g; split; [done|].
  destruct Hab as [H|H]; [left; rewrite <- Ua | right; rewrite <- Ub];
    by apply upper_of_ci.
Qed.

Lemma rec_tight_verdict (a b : string) st st' :
  a <> EmptyString -> b <> EmptyString ->
  all_letters a = true -> all_letters b = true ->
  upper a = "ACCEPT" -> upper b = "REJECT" ->
  reach true (re_rec_tight a b) st st' -> verdict_captured st'.
Proof.
  intros Ha Hb La Lb Ua Ub. revert st st'. apply ends_lits, ends_seq, ends_seq.
  intros st st'. by apply (ends_group_verdict a b).
Qed.

Lemma rec_loose_verdict (a b : string) st st' :
  a <> EmptyString -> b <> EmptyString ->
  all_letters a = true -> all_letters b = true ->
  upper a = "ACCEPT" -> upper b = "REJECT" ->
  reach true (re_rec_loose a b) st st' -> verdict_captured st'.
Proof.
  intros Ha Hb La Lb Ua Ub. revert st st'. apply ends_lits, ends_seq.
  intros st st'. by apply (ends_group_verdict a b).
Qed.

(** ** From the matching relation to [re_search] *)

Lemma re_search_group (pattern : string) r ic (P : mstate -> Prop) text m :
  re_compile pattern = Some r ->
  (forall st st', reach ic r st st' -> P st') ->
  re_search pattern text ic = Some m ->
  exists st', P st' /\ grp st' = m_group1 m.
Proof.
  intros Hc HP H. unfold re_search in H. rewrite Hc in H.
  apply search_from_Some in H as (u & s2 & _ & _ & H & _).
  apply rmatch_sound in H as (st' & Hr & Hk).
  exists st'. split; [by eapply HP|]. unfold k_group in Hk. congruence.
Qed.

(** A match of a percentage pattern captures a non-empty run of digits. *)
Lemma group_digits (pattern : string) ic text m :
  In (pattern, ic) percentage_patterns ->
  re_search pattern text ic = Some m ->
  exists ds, m_group1 m = Some ds /\ truthy ds = true /\ all_decimal ds = true.
Proof.
  intros Hin H.
  assert (exists st', digits_captured st' /\ grp st' = m_group1 m)
    as (st' & (ds & Hg & ? & ?) & Heq).
  { simpl in Hin.
    destruct Hin as [[= <- <-]|[[= <- <-]|[[= <- <-]|[[= <- <-]|[]]]]].
    - eapply re_search_group; [apply compile_pct_primary | apply pct_primary_digits | done].
    - eapply re_search_group; [apply compile_pct_sign | apply pct_sign_digits | done].
    - eapply re_search_group; [apply compile_pct_loose | apply pct_loose_digits | done].
    - eapply re_search_group; [apply compile_pct_match | apply pct_match_digits | done]. }
  exists ds. by rewrite <- Heq.
Qed.

(** A match of a recommendation pattern captures ACCEPT or REJECT, in any
    case. *)
Lemma group_accept_reject (pattern : string) text m :
  In pattern recommendation_patterns ->
  re_search pattern text true = Some m ->
  exists g, m_group1 m = Some g /\ (upper g = "ACCEPT" \/ upper g = "REJECT").
Proof.
  intros Hin H.
  assert (exists st', verdict_captured st' /\ grp st' = m_group1 m)
    as (st' & (g & Hg & ?) & Heq).
  { simpl in Hin. destruct Hin as [<-|[<-|[<-|[<-|[]]]]].
    - eapply re_search_group; [apply compile_rec_1 | | done].
      intros st0 st1. by apply rec_tight_verdict.
    - eapply re_search_group; [apply compile_rec_2 | | done].
      intros st0 st1. by apply rec_tight_verdict.
    - eapply re_search_group; [apply compile_rec_3 | | done].
      intros st0 st1. by apply rec_loose_verdict.
    - eapply re_search_group; [apply compile_rec_4 | | done].
      intros st0 st1. by apply rec_loose_verdict. }
  exists g. by rewrite <- Heq.
Qed.

End PatternFacts.
(* ===================================================================== *)
(** * Parsing the model's response *)
(* ===================================================================== *)

Module ParseFacts.
Import Chars Re Py Main Spec MatcherFacts StringFacts SearchFacts PatternFacts.

#[local] Arguments cs_match : simpl never.

(** ** The standalone word [accept] *)

Lemma ci_accept_inv (w : string) :
  ci_eq w "accept" = true ->
  exists c w' t, w = String c w' /\ is_word c = true /\
    last_char None w = Some t /\ is_word t = true /\
    (forall p, last_char p w = Some t).
Proof.
  intros H.
  destruct w as [|c1 [|c2 [|c3 [|c4 [|c5 [|c6 [|]]]]]]]; try discriminate;
    simpl in H; repeat (apply andb_true_iff in H as [? H]); try discriminate.
  exists c1, (String c2 (String c3 (String c4 (String c5 (String c6 EmptyString))))), c6.
  repeat split.
  - by apply (letter_is_word c1 "a").
  - by apply (letter_is_word c6 "t").
Qed.

Lemma reach_accept st st' :
  reach true re_accept st st' <->
  exists w post, rest st = w +:+ post /\ ci_eq w "accept" = true /\
    word_before (prev st) = false /\ word_at post = false /\
    st' = MState (last_char (prev st) w) post (grp st).
Proof.
  unfold re_accept.
  change (reach true (RSeq RBoundary (lits "accept" RBoundary)) st st')
    with (exists mid, (at_boundary (prev st) (rest st) = true /\ mid = st) /\
                      reach true (lits "accept" RBoundary) mid st').
  split.
  - intros (mid & (Hb & ->) & H).
    apply reach_lits in H as (w & post & Hrest & Heq & (Hb2 & ->)).
    simpl in Hb2. rewrite lit_eq_ci in Heq.
    exists w, post. repeat split; try done.
    + destruct (ci_accept_inv _ Heq) as (c & w' & t & -> & Hc & _).
      rewrite Hrest in Hb. simpl in Hb. unfold at_boundary in Hb. simpl in Hb.
      rewrite Hc in Hb. by destruct (word_before (prev st)).
    + destruct (ci_accept_inv _ Heq) as (c & w' & t & _ & _ & _ & Ht & Hl).
      unfold at_boundary in Hb2. rewrite Hl in Hb2. simpl in Hb2.
      rewrite Ht in Hb2. by destruct (word_at post).
  - intros (w & post & Hrest & Heq & Hp & Hq & ->).
    destruct (ci_accept_inv _ Heq) as (c & w' & t & Hw & Hc & _ & Ht & Hl).
    exists st. split.
    + split; [|done]. unfold at_boundary. rewrite Hp, Hrest, Hw. simpl.
      by rewrite Hc.
    + apply reach_lits. exists w, post. rewrite lit_eq_ci.
      repeat split; try done. simpl.
      unfold at_boundary. rewrite Hl, Hq. simpl. by rewrite Ht.
Qed.

(** The fallback search finds a match exactly when the text holds a
    standalone [accept]. *)
Lemma accept_search_iff (text : string) :
  is_Some (re_search accept_word_pattern text true) <-> standalone_accept text.
Proof.
  unfold re_search. rewrite compile_accept. split.
  - intros [m H]. apply search_from_Some in H as (u & s2 & -> & _ & H & _).
    apply rmatch_sound in H as (st' & Hr & _).
    apply reach_accept in Hr as (w & post & Hrest & Heq & Hp & Hq & _).
    simpl in *. exists u, w, post. by rewrite Hrest.
  - intros (pre & w & post & -> & Heq & Hp & Hq).
    destruct (search_from true re_accept 0 None (pre +:+ w +:+ post)) eqn:Hs;
      [eauto|].
    exfalso. rewrite search_from_None in Hs.
    specialize (Hs pre (w +:+ post) eq_refl).
    rewrite rmatch_None_iff in Hs.
    specialize (Hs (MState (last_char (last_char None pre) w) post None)).
    discriminate Hs. apply reach_accept. by exists w, post.
Qed.

(** ** The loops over the pattern lists *)

Lemma alt_loop_first (patterns : list string) (text : string) :
  alt_loop patterns text =
  match first_match (List.map (fun p => (p, true)) patterns) text with
  | Some m => py_int (m_group1 m)
  | None => Ret 0
  end.
Proof.
  induction patterns as [|p ps IH]; simpl; [done|].
  by destruct (re_search p text true).
Qed.

Lemma parse_percentage_first (text : string) :
  parse_percentage text =
  match first_match percentage_patterns text with
  | Some m => py_int (m_group1 m)
  | None => Ret 0
  end.
Proof.
  unfold parse_percentage. rewrite alt_loop_first.
  change percentage_patterns with
    ((match_percentage_pattern, false) :: List.map (fun p => (p, true)) alt_patterns).
  cbn [first_match].
  by destruct (re_search match_percentage_pattern text false).
Qed.

Lemma first_match_in (patterns : list (string * bool)) (text : string) m :
  first_match patterns text = Some m ->
  exists pattern ic, In (pattern, ic) patterns /\ re_search pattern text ic = Some m.
Proof.
  induction patterns as [|[p ic] ps IH]; simpl; [done|].
  destruct (re_search p text ic) eqn:Hs.
  - intros [= ->]. exists p, ic. auto.
  - intros H. destruct (IH H) as (p' & ic' & ? & ?). exists p', ic'. auto.
Qed.


Lemma rec_loop_first (patterns : list string) (text : string) :
  rec_loop patterns text =
  match first_match (List.map (fun p => (p, true)) patterns) text with
  | Some m =>
      match py_upper (m_group1 m) with
      | Ret u => Ret (Some u)
      | Raise e => Raise e
      end
  | None => Ret None
  end.
Proof.
  induction patterns as [|p ps IH]; simpl; [done|].
  by destruct (re_search p text true).
Qed.

Lemma first_match_percentage (text : string) m :
  first_match percentage_patterns text = Some m ->
  exists ds, m_group1 m = Some ds /\ truthy ds = true /\ all_decimal ds = true.
Proof.
  intros H. apply first_match_in in H as (p & ic & Hin & Hs).
  by eapply group_digits.
Qed.

Lemma first_match_recommendation (text : string) m :
  first_match labeled_recommendation_patterns text = Some m ->
  exists g, m_group1 m = Some g /\ (upper g = "ACCEPT" \/ upper g = "REJECT").
Proof.
  intros H. apply first_match_in in H as (p & ic & Hin & Hs).
  assert (ic = true /\ In p recommendation_patterns) as [-> Hp].
  { simpl in Hin. destruct Hin as [[= <- <-]|[[= <- <-]|[[= <- <-]|[[= <- <-]|[]]]]];
      simpl; auto 10. }
  by eapply group_accept_reject.
Qed.

Lemma py_int_run (ds : string) :
  truthy ds = true -> all_decimal ds = true ->
  py_int (Some ds)
  = if (String.length ds <=? int_max_str_digits)%nat
    then Ret (int_of_digits ds)
    else Raise (digits_limit_error (String.length ds)).
Proof. intros H1 H2. unfold py_int. by rewrite H1, H2. Qed.


Lemma py_int_long (ds : string) :
  truthy ds = true -> all_decimal ds = true ->
  (int_max_str_digits < String.length ds)%nat ->
  py_int (Some ds) = Raise (digits_limit_error (String.length ds)).
Proof.
  intros H1 H2 H3. rewrite py_int_run by done.
  apply Nat.leb_gt in H3. by rewrite H3.
Qed.

(** What [parse_percentage] returns, by cases on the first match. *)
Lemma parse_percentage_cases (text : string) :
  match first_match percentage_patterns text with
  | Some m =>
      exists ds, m_group1 m = Some ds /\ truthy ds = true /\
        all_decimal ds = true /\
        parse_percentage text
        = if (String.length ds <=? int_max_str_digits)%nat
          then Ret (int_of_digits ds)
          else Raise (digits_limit_error (String.length ds))
  | None => parse_percentage text = Ret 0
  end.
Proof.
  rewrite parse_percentage_first.
  destruct (first_match percentage_patterns text) as [m|] eqn:Hm; [|done].
  destruct (first_match_percentage _ _ Hm) as (ds & Hg & H1 & H2).
  exists ds. rewrite Hg. by rewrite py_int_run.
Qed.


(** The two cases by the number of captured digits. *)
Lemma parse_percentage_within (text : string) :
  (captured_digits text <= int_max_str_digits)%nat ->
  exists n, parse_percentage text = Ret n /\ 0 <= n.
Proof.
  intros Hlen. unfold captured_digits in Hlen.
  pose proof (parse_percentage_cases text) as H.
  destruct (first_match percentage_patterns text).
  - destruct H as (ds & Hg & _ & Hd & H). rewrite Hg in Hlen. simpl in Hlen.
    apply Nat.leb_le in Hlen. rewrite Hlen in H.
    eexists; split; [done|]. by apply int_of_digits_nonneg.
  - rewrite H. by exists 0.
Qed.

Lemma parse_percentage_beyond (text : string) :
  (int_max_str_digits < captured_digits text)%nat ->
  parse_percentage text = Raise (digits_limit_error (captured_digits text)).
Proof.
  intros Hlen. unfold captured_digits in *.
  pose proof (parse_percentage_cases text) as H.
  destruct (first_match percentage_patterns text).
  - destruct H as (ds & Hg & _ & Hd & H). rewrite Hg in Hlen |- *. simpl in *.
    apply Nat.leb_gt in Hlen. by rewrite Hlen in H.
  - unfold int_max_str_digits in Hlen. lia.
Qed.

(** What [parse_recommendation] returns, by cases on the first match. *)
Lemma parse_recommendation_cases (text : string) :
  match first_match labeled_recommendation_patterns text with
  | Some m =>
      exists g, m_group1 m = Some g /\
        (upper g = "ACCEPT" \/ upper g = "REJECT") /\
        parse_recommendation text = Ret (upper g)
  | None =>
      (standalone_accept text /\ parse_recommendation text = Ret "ACCEPT") \/
      (~ standalone_accept text /\ parse_recommendation text = Ret "REJECT")
  end.
Proof.
  unfold parse_recommendation. rewrite rec_loop_first.
  change (List.map (fun p => (p, true)) recommendation_patterns)
    with labeled_recommendation_patterns.
  destruct (first_match labeled_recommendation_patterns text) as [m|] eqn:Hm.
  - destruct (first_match_recommendation _ _ Hm) as (g & Hg & Hv).
    exists g. rewrite Hg. simpl. done.
  - simpl. destruct (re_search accept_word_pattern text true) as [m|] eqn:Hs.
    + left. split; [|done]. apply accept_search_iff. by rewrite Hs.
    + right. split; [|done]. intros H. apply accept_search_iff in H.
      rewrite Hs in H. by destruct H.
Qed.

Lemma parse_recommendation_total (text : string) :
  exists r, parse_recommendation text = Ret r /\ (r = "ACCEPT" \/ r = "REJECT").
Proof.
  pose proof (parse_recommendation_cases text) as H.
  destruct (first_match labeled_recommendation_patterns text).
  - destruct H as (g & _ & Hv & ->). by exists (upper g).
  - destruct H as [[_ ->]|[_ ->]]; eexists; split; eauto.
Qed.

End ParseFacts.
(* ===================================================================== *)
(** * Where a label sits in a text *)
(* ===================================================================== *)

Module LabelFacts.
Import Chars Re Py Main Spec MatcherFacts StringFacts SearchFacts PatternFacts
  ParseFacts.

















End LabelFacts.
(* ===================================================================== *)
(** * The pipeline *)
(* ===================================================================== *)

Module PipelineFacts.
Import Chars Re Py Main Spec StringFacts ParseFacts.

Lemma parse_response_within (text : string) :
  (captured_digits text <= int_max_str_digits)%nat ->
  exists n r, parse_response text = Ret (text, n, r) /\ 0 <= n /\
    (r = "ACCEPT" \/ r = "REJECT").
Proof.
  intros Hlen.
  destruct (parse_percentage_within text Hlen) as (n & Hn & Hpos).
  destruct (parse_recommendation_total text) as (r & Hr & Hv).
  exists n, r. unfold parse_response. rewrite Hn. simpl. rewrite Hr. done.
Qed.

Lemma parse_response_beyond (text : string) :
  (int_max_str_digits < captured_digits text)%nat ->
  parse_response text = Raise (digits_limit_error (captured_digits text)).
Proof.
  intros Hlen. unfold parse_response.
  by rewrite (parse_percentage_beyond text Hlen).
Qed.

Lemma analyz_match_cases w cv_text job_description s :
  analyz_match w cv_text job_description s =
  (Sys (tmp_next s) (tmp_live s) (trace s ++ [EvInvoke cv_text job_description]),
   match chain_invoke w cv_text job_description with
   | Ret response => parse_response (response_text_of response)
   | Raise e => Raise e
   end).
Proof.
  unfold analyz_match, mbind, M_bind, emit, lift. simpl.
  by destruct (chain_invoke w cv_text job_description).
Qed.

Lemma send_email_cases w recipient subject body s :
  send_email w recipient subject body s =
  match smtp_session w (Message (EMAIL_SENDER w) recipient subject body) s with
  | (s', Ret _) => (s', Ret (true, "Email sent successfully!"))
  | (s', Raise e) => (s', Ret (false, "Failed to send email: " +:+ exn_str e))
  end.
Proof.
  unfold send_email, try_except, mbind, M_bind, mret, M_ret.
  by destruct (smtp_session _ _ s) as [s' [[]|e]].
Qed.

Lemma process_application_cases w cv_file applicant_name applicant_email
    job_title job_description match_threshold s :
  process_application w cv_file applicant_name applicant_email job_title
    job_description match_threshold s =
  match pdf_loader w cv_file s with
  | (s1, Raise e) => (s1, Raise e)
  | (s1, Ret cv_text) =>
      match analyz_match w cv_text job_description s1 with
      | (s2, Raise e) => (s2, Raise e)
      | (s2, Ret (analysis_text, match_percentage, recommendation)) =>
          if truthy analysis_text then
            let is_match :=
              is_match_of match_percentage match_threshold recommendation in
            let subject := (email_content applicant_name job_title is_match).1 in
            let body := (email_content applicant_name job_title is_match).2 in
            match send_email w applicant_email subject body
                    (composed s2 subject body) with
            | (s3, Ret (email_success, email_message)) =>
                (s3, Ret (success_result applicant_name job_title match_percentage
                            is_match email_success email_message analysis_text))
            | (s3, Raise e) => (s3, Raise e)
            end
          else (s2, Ret failure_result)
      end
  end.
Proof.
  unfold process_application. unfold mbind at 1. unfold M_bind at 1.
  destruct (pdf_loader w cv_file s) as [s1 [cv_text|e]]; [|done].
  unfold mbind at 1. unfold M_bind at 1.
  destruct (analyz_match w cv_text job_description s1)
    as [s2 [[[analysis_text match_percentage] recommendation]|e]]; [|done].
  destruct (truthy analysis_text); simpl; [|done].
  destruct (email_content _ _ _) as [subject body] eqn:Hcontent. simpl.
  unfold mbind, M_bind, emit, composed. simpl.
  by destruct (send_email _ _ _ _ _) as [s3 [[ok msg]|e]].
Qed.

(** ** [pdf_loader] *)

Lemma pdf_loader_cases w pdf_file s :
  let d := tmp_next s in
  let path := path_join (tmp_name d) (name pdf_file) in
  let created := trace s ++ [EvTmpCreate d] in
  let written := created ++ [EvFileWrite path (getbuffer pdf_file)] in
  pdf_loader w pdf_file s =
  match open_wb w path with
  | Some e => (Sys (S d) ({[ d ]} ∪ tmp_live s) created, Raise e)
  | None =>
      match PdfReader w (getbuffer pdf_file) with
      | Raise e => (Sys (S d) ({[ d ]} ∪ tmp_live s) written, Raise e)
      | Ret pages =>
          match extract_pages pages EmptyString with
          | Raise e => (Sys (S d) ({[ d ]} ∪ tmp_live s) written, Raise e)
          | Ret text =>
              (Sys (S d) (({[ d ]} ∪ tmp_live s) ∖ {[ d ]})
                 (written ++ [EvTmpCleanup d]), Ret text)
          end
      end
  end.
Proof.
  simpl. unfold pdf_loader, TemporaryDirectory, cleanup, mbind, M_bind, mret,
    M_ret, lift, emit. simpl.
  destruct (open_wb w _); [done|]. simpl.
  destruct (PdfReader w _) as [pages|e]; [|done]. simpl.
  by destruct (extract_pages pages EmptyString).
Qed.

Lemma emails_composed_snoc s e :
  emails_composed (Sys (tmp_next s) (tmp_live s) (trace s ++ [e])) =
  emails_composed s ++
    match e with EvCompose sub b => [(sub, b)] | _ => [] end.
Proof. unfold emails_composed. simpl. rewrite omap_app. by destruct e. Qed.

Lemma emails_sent_snoc s e :
  emails_sent (Sys (tmp_next s) (tmp_live s) (trace s ++ [e])) =
  emails_sent s ++
    match e with EvSmtp (SmtpSendMessage m) => [m] | _ => [] end.
Proof.
  unfold emails_sent. simpl. rewrite omap_app. destruct e; try done.
  by destruct op.
Qed.

Lemma no_email_extends s s' evs :
  extends s s' evs ->
  Forall (fun e => match e with
                   | EvCompose _ _ | EvSmtp _ => False
                   | _ => True
                   end) evs ->
  no_email s s'.
Proof.
  unfold extends, no_email, emails_composed, emails_sent. intros -> H.
  rewrite !omap_app.
  induction H as [|e evs He _ IH]; simpl; [by rewrite !app_nil_r|].
  destruct e; simpl in He |- *; done.
Qed.

Lemma no_email_refl s : no_email s s.
Proof. done. Qed.

Lemma no_email_trans s1 s2 s3 : no_email s1 s2 -> no_email s2 s3 -> no_email s1 s3.
Proof. intros [H1 H2] [H3 H4]. split; congruence. Qed.

Lemma pdf_loader_no_email w pdf_file s :
  no_email s (pdf_loader w pdf_file s).1.
Proof.
  pose proof (pdf_loader_cases w pdf_file s) as H. simpl in H. rewrite H.
  destruct (open_wb w _); [|destruct (PdfReader w _) as [pages|];
    [destruct (extract_pages pages EmptyString)|]]; simpl;
    (eapply no_email_extends;
     [unfold extends; simpl; rewrite <- ?List.app_assoc; reflexivity|]);
    repeat constructor.
Qed.

Lemma analyz_match_no_email w cv_text job_description s :
  no_email s (analyz_match w cv_text job_description s).1.
Proof.
  rewrite analyz_match_cases. simpl.
  eapply no_email_extends; [by unfold extends|]. repeat constructor.
Qed.

(** [analyz_match] raises only when the model call does, or when [int]
    refuses a captured run of more than [int_max_str_digits] digits. *)
Lemma analyz_match_raise w cv_text job_description s s' e :
  analyz_match w cv_text job_description s = (s', Raise e) ->
  chain_invoke w cv_text job_description = Raise e \/
  exists response,
    chain_invoke w cv_text job_description = Ret response /\
    (int_max_str_digits < captured_digits (response_text_of response))%nat /\
    e = digits_limit_error (captured_digits (response_text_of response)).
Proof.
  rewrite analyz_match_cases. intros [= _ H].
  destruct (chain_invoke w cv_text job_description) as [response|e'];
    [|left; by injection H as ->].
  right. exists response. split; [done|].
  destruct (Nat.le_gt_cases (captured_digits (response_text_of response))
              int_max_str_digits) as [Hle|Hgt].
  - destruct (parse_response_within _ Hle) as (n & r & Hp & _).
    rewrite Hp in H. discriminate.
  - split; [done|]. rewrite (parse_response_beyond _ Hgt) in H.
    by injection H as <-.
Qed.

Lemma analyz_match_text w cv_text job_description s s' text n r :
  analyz_match w cv_text job_description s = (s', Ret (text, n, r)) ->
  exists response,
    chain_invoke w cv_text job_description = Ret response /\
    response_text_of response = text /\
    parse_percentage text = Ret n /\ parse_recommendation text = Ret r.
Proof.
  rewrite analyz_match_cases. intros [= _ H].
  destruct (chain_invoke w cv_text job_description) as [response|e']; [|done].
  exists response. split; [done|].
  unfold parse_response in H.
  destruct (parse_percentage (response_text_of response)) as [n'|] eqn:Hp; [|done].
  simpl in H.
  destruct (parse_recommendation (response_text_of response)) as [r'|] eqn:Hr; [|done].
  simpl in H. injection H as H1 H2 H3. by subst.
Qed.

(** ** [send_email] *)

Lemma send_email_total w recipient subject body s :
  exists s' ok msg,
    send_email w recipient subject body s = (s', Ret (ok, msg)) /\ truthy msg = true.
Proof.
  rewrite send_email_cases.
  destruct (smtp_session _ _ s) as [s' [[]|e]]; eauto.
Qed.

Lemma smtp_do_composed w i op s :
  emails_composed (smtp_do w i op s).1 = emails_composed s.
Proof.
  unfold smtp_do. destruct (smtp w i op); [done|].
  unfold emit. simpl. rewrite emails_composed_snoc. by rewrite app_nil_r.
Qed.

Lemma bind_composed {A B : Type} (m : M A) (f : A -> M B) s :
  (forall s0, emails_composed (m s0).1 = emails_composed s0) ->
  (forall a s0, emails_composed (f a s0).1 = emails_composed s0) ->
  emails_composed ((m ≫= f) s).1 = emails_composed s.
Proof.
  intros Hm Hf. unfold mbind, M_bind. specialize (Hm s).
  destruct (m s) as [s1 [a|e]]; simpl in *; [|done].
  by rewrite Hf.
Qed.

Lemma smtp_session_composed w m s :
  emails_composed (smtp_session w m s).1 = emails_composed s.
Proof.
  unfold smtp_session. apply bind_composed; [apply smtp_do_composed|].
  intros _ s0. unfold with_exit.
  assert (forall s1, emails_composed (smtp_body w m s1).1 = emails_composed s1) as Hbody.
  { intros s1. unfold smtp_body.
    repeat (apply bind_composed; [try apply smtp_do_composed | intros _ ?]);
      try apply smtp_do_composed.
    destruct (_ && _); [apply smtp_do_composed | done]. }
  specialize (Hbody s0). destruct (smtp_body w m s0) as [s1 [a|e]]; simpl in Hbody;
    pose proof (smtp_do_composed w 6 SmtpQuit s1) as Hq;
    destruct (smtp_do w 6 SmtpQuit s1) as [s2 [[]|e']]; simpl in *; congruence.
Qed.

Lemma send_email_composed w recipient subject body s :
  emails_composed (send_email w recipient subject body s).1 = emails_composed s.
Proof.
  rewrite send_email_cases.
  pose proof (smtp_session_composed w (Message (EMAIL_SENDER w) recipient subject body) s) as H.
  by destruct (smtp_session _ _ s) as [s' [[]|e]].
Qed.

Lemma sent_only_refl m s : sent_only m s s.
Proof. exists []. by rewrite app_nil_r. Qed.

Lemma sent_only_trans m s1 s2 s3 :
  sent_only m s1 s2 -> sent_only m s2 s3 -> sent_only m s1 s3.
Proof.
  intros (ms1 & H1 & F1) (ms2 & H2 & F2). exists (ms1 ++ ms2).
  split; [by rewrite H2, H1, <- app_assoc | by apply Forall_app].
Qed.

Lemma smtp_do_sent w i op m :
  (forall m', op = SmtpSendMessage m' -> m' = m) ->
  forall s, sent_only m s (smtp_do w i op s).1.
Proof.
  intros Hop s. unfold smtp_do. destruct (smtp w i op); [apply sent_only_refl|].
  unfold emit, sent_only. simpl. rewrite emails_sent_snoc.
  eexists; split; [reflexivity|].
  destruct op; try constructor; [|constructor]. symmetry. by apply Hop.
Qed.

Lemma bind_sent {A B : Type} (c : M A) (f : A -> M B) m s :
  (forall s0, sent_only m s0 (c s0).1) ->
  (forall a s0, sent_only m s0 (f a s0).1) ->
  sent_only m s ((c ≫= f) s).1.
Proof.
  intros Hc Hf. unfold mbind, M_bind. specialize (Hc s).
  destruct (c s) as [s1 [a|e]]; simpl in *; [|done].
  eapply sent_only_trans; [exact Hc | apply Hf].
Qed.

Lemma smtp_session_sent w m s : sent_only m s (smtp_session w m s).1.
Proof.
  unfold smtp_session. apply bind_sent; [by apply smtp_do_sent|].
  intros _ s0. unfold with_exit.
  assert (forall s1, sent_only m s1 (smtp_body w m s1).1) as Hbody.
  { intros s1. unfold smtp_body.
    repeat (apply bind_sent; [try by apply smtp_do_sent | intros _ ?]);
      try (apply smtp_do_sent; by intros ? [= ->]).
    destruct (_ && _); [by apply smtp_do_sent | apply sent_only_refl]. }
  specialize (Hbody s0). destruct (smtp_body w m s0) as [s1 [a|e]]; simpl in Hbody;
    pose proof (smtp_do_sent w 6 SmtpQuit m ltac:(done) s1) as Hq;
    destruct (smtp_do w 6 SmtpQuit s1) as [s2 [[]|e']]; simpl in *;
    by eapply sent_only_trans.
Qed.

Lemma send_email_sent w recipient subject body s :
  sent_only (Message (EMAIL_SENDER w) recipient subject body) s
    (send_email w recipient subject body s).1.
Proof.
  rewrite send_email_cases.
  pose proof (smtp_session_sent w (Message (EMAIL_SENDER w) recipient subject body) s) as H.
  by destruct (smtp_session _ _ s) as [s' [[]|e]].
Qed.

End PipelineFacts.
(* ===================================================================== *)
(** * Labels and digits in whole texts *)
(* ===================================================================== *)

Module TextFacts.
Import Chars Re Py Main Spec MatcherFacts StringFacts SearchFacts PatternFacts
  ParseFacts LabelFacts.

#[local] Arguments cs_match : simpl never.





(** ** No percentage without a digit *)








(** ** The phrases of the specification inside longer texts *)



End TextFacts.

(* ===================================================================== *)
(** * Runs of [process_application] *)
(* ===================================================================== *)

Module RunFacts.
Import Chars Re Py Main Spec StringFacts ParseFacts PipelineFacts.

(** A run that gets past the analysis returns the full record, whatever the
    relay does. *)
Lemma process_application_success w cv_file applicant_name applicant_email
    job_title job_description match_threshold s s1 s2 cv_text analysis_text
    match_percentage recommendation :
  pdf_loader w cv_file s = (s1, Ret cv_text) ->
  analyz_match w cv_text job_description s1
    = (s2, Ret (analysis_text, match_percentage, recommendation)) ->
  truthy analysis_text = true ->
  let is_match := is_match_of match_percentage match_threshold recommendation in
  let subject := (email_content applicant_name job_title is_match).1 in
  let body := (email_content applicant_name job_title is_match).2 in
  exists s' email_success email_message,
    send_email w applicant_email subject body (composed s2 subject body)
      = (s', Ret (email_success, email_message)) /\
    truthy email_message = true /\
    process_application w cv_file applicant_name applicant_email job_title
      job_description match_threshold s
    = (s', Ret (success_result applicant_name job_title match_percentage is_match
                  email_success email_message analysis_text)).
Proof.
  intros Hpdf Han Htext is_match subject body.
  destruct (send_email_total w applicant_email subject body (composed s2 subject body))
    as (s' & ok & msg & Hsend & Hmsg).
  exists s', ok, msg. split; [done|]. split; [done|].
  rewrite process_application_cases, Hpdf, Han, Htext. cbv zeta.
  fold is_match. fold subject. fold body. by rewrite Hsend.
Qed.

(** A run whose analysis text is empty returns the two-key failure record. *)
Lemma process_application_empty w cv_file applicant_name applicant_email
    job_title job_description match_threshold s s1 s2 cv_text
    match_percentage recommendation :
  pdf_loader w cv_file s = (s1, Ret cv_text) ->
  analyz_match w cv_text job_description s1
    = (s2, Ret (EmptyString, match_percentage, recommendation)) ->
  process_application w cv_file applicant_name applicant_email job_title
    job_description match_threshold s = (s2, Ret failure_result).
Proof.
  intros Hpdf Han. by rewrite process_application_cases, Hpdf, Han.
Qed.

(** A run whose extraction raises lets the exception through. *)
Lemma process_application_pdf_raise w cv_file applicant_name applicant_email
    job_title job_description match_threshold s s1 e :
  pdf_loader w cv_file s = (s1, Raise e) ->
  process_application w cv_file applicant_name applicant_email job_title
    job_description match_threshold s = (s1, Raise e).
Proof. intros Hpdf. by rewrite process_application_cases, Hpdf. Qed.

(** A run whose evaluation raises lets the exception through. *)
Lemma process_application_model_raise w cv_file applicant_name applicant_email
    job_title job_description match_threshold s s1 s2 cv_text e :
  pdf_loader w cv_file s = (s1, Ret cv_text) ->
  analyz_match w cv_text job_description s1 = (s2, Raise e) ->
  process_application w cv_file applicant_name applicant_email job_title
    job_description match_threshold s = (s2, Raise e).
Proof. intros Hpdf Han. by rewrite process_application_cases, Hpdf, Han. Qed.

Lemma no_email_pdf w cv_file s s1 o :
  pdf_loader w cv_file s = (s1, o) -> no_email s s1.
Proof. intros H. pose proof (pdf_loader_no_email w cv_file s) as Hn. by rewrite H in Hn. Qed.

Lemma no_email_analyz w cv_text job_description s s1 o :
  analyz_match w cv_text job_description s = (s1, o) -> no_email s s1.
Proof.
  intros H. pose proof (analyz_match_no_email w cv_text job_description s) as Hn.
  by rewrite H in Hn.
Qed.

(** The runs, by their last stage. *)
Lemma process_application_inv w cv_file applicant_name applicant_email
    job_title job_description match_threshold s s' o :
  process_application w cv_file applicant_name applicant_email job_title
    job_description match_threshold s = (s', o) ->
  (exists e, pdf_loader w cv_file s = (s', Raise e) /\ o = Raise e) \/
  (exists s1 cv_text,
     pdf_loader w cv_file s = (s1, Ret cv_text) /\
     ((exists e, analyz_match w cv_text job_description s1 = (s', Raise e) /\
                 o = Raise e) \/
      (exists match_percentage recommendation,
         analyz_match w cv_text job_description s1
           = (s', Ret (EmptyString, match_percentage, recommendation)) /\
         o = Ret failure_result) \/
      (exists s2 analysis_text match_percentage recommendation
              email_success email_message,
         analyz_match w cv_text job_description s1
           = (s2, Ret (analysis_text, match_percentage, recommendation)) /\
         truthy analysis_text = true /\
         let is_match :=
           is_match_of match_percentage match_threshold recommendation in
         let subject := (email_content applicant_name job_title is_match).1 in
         let body := (email_content applicant_name job_title is_match).2 in
         send_email w applicant_email subject body (composed s2 subject body)
           = (s', Ret (email_success, email_message)) /\
         truthy email_message = true /\
         o = Ret (success_result applicant_name job_title match_percentage
                    is_match email_success email_message analysis_text)))).
Proof.
  intros H.
  destruct (pdf_loader w cv_file s) as [s1 [cv_text|e]] eqn:Hpdf.
  - right. exists s1, cv_text. split; [done|].
    destruct (analyz_match w cv_text job_description s1)
      as [s2 [[[analysis_text match_percentage] recommendation]|e]] eqn:Han.
    + destruct (truthy analysis_text) eqn:Htext.
      * right. right.
        destruct (process_application_success w cv_file applicant_name
                    applicant_email job_title job_description match_threshold
                    _ _ _ _ _ _ _ Hpdf Han Htext)
          as (s3 & ok & msg & Hsend & Hmsg & Hrun).
        rewrite Hrun in H. injection H as <- <-.
        exists s2, analysis_text, match_percentage, recommendation, ok, msg.
        done.
      * right. left. destruct analysis_text; [|done].
        rewrite (process_application_empty _ _ _ _ _ _ _ _ _ _ _ _ _ Hpdf Han) in H.
        injection H as <- <-. by exists match_percentage, recommendation.
    + left. rewrite (process_application_model_raise _ _ _ _ _ _ _ _ _ _ _ _ Hpdf Han) in H.
      injection H as <- <-. by exists e.
  - left. rewrite (process_application_pdf_raise _ _ _ _ _ _ _ _ _ _ Hpdf) in H.
    injection H as <- <-. by exists e.
Qed.

End RunFacts.

(* ===================================================================== *)
(** * The specification of the pipeline *)
(* ===================================================================== *)

Import Chars Re Py Main Spec Scenario.
Import StringFacts ParseFacts PipelineFacts RunFacts TextFacts.

(** ** Decision policy *)

Lemma is_match_of_spec (match_percentage match_threshold : Z) (recommendation : string) :
  is_match_of match_percentage match_threshold recommendation = true <->
  (match_percentage >= match_threshold \/ recommendation = "ACCEPT").
Proof.
  unfold is_match_of. rewrite orb_true_iff, Z.leb_le, String.eqb_eq.
  split; (intros [H|H]; [left; lia | by right]).
Qed.

Lemma success_recommendation n t mp (b ok : bool) msg a :
  success_result n t mp b ok msg a !! "recommendation"
  = Some (VStr (if b then "Accept" else "Reject")).
Proof. reflexivity. Qed.

(** The examples of the specification: (65, 70, REJECT), (65, 70, ACCEPT),
    (75, 70, REJECT). *)
Example decision_examples :
  is_match_of 65 70 "REJECT" = false /\
  is_match_of 65 70 "ACCEPT" = true /\
  is_match_of 75 70 "REJECT" = true.
Proof. done. Qed.

(** C1: the decision of the Orchestrator is Accept exactly when
    [match_percentage >= match_threshold] or the Evaluator recommends
    ACCEPT, for every triple; every run that reaches the decision returns a
    record whose [recommendation] field is ["Accept"] in exactly that case
    and ["Reject"] otherwise. *)
Theorem C1_decision_policy (match_percentage match_threshold : Z)
    (recommendation : string) :
  (is_match_of match_percentage match_threshold recommendation = true <->
   (match_percentage >= match_threshold \/ recommendation = "ACCEPT")) /\
  forall w cv_file applicant_name applicant_email job_title job_description
         s s1 s2 cv_text analysis_text,
    pdf_loader w cv_file s = (s1, Ret cv_text) ->
    analyz_match w cv_text job_description s1
      = (s2, Ret (analysis_text, match_percentage, recommendation)) ->
    truthy analysis_text = true ->
    exists s' d,
      process_application w cv_file applicant_name applicant_email job_title
        job_description match_threshold s = (s', Ret d) /\
      (d !! "recommendation" = Some (VStr "Accept") <->
       (match_percentage >= match_threshold \/ recommendation = "ACCEPT")) /\
      (d !! "recommendation" = Some (VStr "Reject") <->
       ~ (match_percentage >= match_threshold \/ recommendation = "ACCEPT")).
Proof.
  split; [apply is_match_of_spec|].
  intros w cv_file applicant_name applicant_email job_title job_description
    s s1 s2 cv_text analysis_text Hpdf Han Htext.
  destruct (process_application_success w cv_file applicant_name applicant_email
              job_title job_description match_threshold _ _ _ _ _ _ _
              Hpdf Han Htext) as (s' & ok & msg & _ & _ & Hrun).
  eexists _, _. split; [exact Hrun|].
  rewrite success_recommendation, <- is_match_of_spec.
  destruct (is_match_of match_percentage match_threshold recommendation);
    split; split; try done; intros [= ?]; done.
Qed.

Lemma C1_decision_policy_witness :
  pdf_loader world_ok cv_file sys0
    = (Sys 1 ∅ [EvTmpCreate 0; EvFileWrite "/tmp/tmp0/cv.pdf" "%PDF-1.4 ...";
                EvTmpCleanup 0],
       Ret "Python, SQL, 5 years experience") /\
  truthy model_answer = true /\
  exists s' d,
    run world_ok 70 = (s', Ret d) /\
    (d !! "recommendation" = Some (VStr "Accept") <-> (88 >= 70 \/ "ACCEPT" = "ACCEPT")).
Proof.
  split; [vm_compute; reflexivity|]. split; [reflexivity|].
  destruct (C1_decision_policy 88 70 "ACCEPT") as [_ H].
  destruct (H world_ok cv_file "Ada" "ada@example.org" "Data Engineer"
              "Python, SQL, 3+ years" sys0 _ _ _ model_answer
              ltac:(vm_compute; reflexivity) ltac:(vm_compute; reflexivity)
              ltac:(reflexivity))
    as (s' & d & Hrun & Hacc & _).
  exists s', d. split; [exact Hrun | exact Hacc].
Defined.

(** ** Failure of extraction or evaluation *)

(** C2, as stated, fails: with bytes that are not a PDF the extraction
    raises, and with the model unreachable the evaluation raises; in both
    runs [process_application] returns no record at all, so none with
    [success = False]. *)
Lemma C2_counterexample :
  ((exists s1 e, pdf_loader world_bad_pdf cv_file sys0 = (s1, Raise e)) /\
   ~ (exists s' d, run world_bad_pdf 70 = (s', Ret d) /\
                   d !! "success" = Some (VBool false))) /\
  ((exists s1 cv_text s2 e,
      pdf_loader world_model_down cv_file sys0 = (s1, Ret cv_text) /\
      analyz_match world_model_down cv_text "Python, SQL, 3+ years" s1
        = (s2, Raise e)) /\
   ~ (exists s' d, run world_model_down 70 = (s', Ret d) /\
                   d !! "success" = Some (VBool false))).
Proof.
  split; split.
  - eexists _, _. vm_compute. reflexivity.
  - intros (s' & d & H & _). vm_compute in H. discriminate H.
  - eexists _, _, _, _. split; vm_compute; reflexivity.
  - intros (s' & d & H & _). vm_compute in H. discriminate H.
Qed.

(** C2, amended: when the extraction or the evaluation raises, the exception
    leaves [process_application] unchanged (no record is returned), and no
    email is composed or sent. *)
Theorem C2_failure_escapes w cv_file applicant_name applicant_email job_title
    job_description match_threshold s :
  (forall s1 e,
     pdf_loader w cv_file s = (s1, Raise e) ->
     process_application w cv_file applicant_name applicant_email job_title
       job_description match_threshold s = (s1, Raise e) /\
     no_email s s1) /\
  (forall s1 cv_text s2 e,
     pdf_loader w cv_file s = (s1, Ret cv_text) ->
     analyz_match w cv_text job_description s1 = (s2, Raise e) ->
     process_application w cv_file applicant_name applicant_email job_title
       job_description match_threshold s = (s2, Raise e) /\
     no_email s s2).
Proof.
  split.
  - intros s1 e Hpdf. split; [by apply process_application_pdf_raise|].
    by eapply no_email_pdf.
  - intros s1 cv_text s2 e Hpdf Han.
    split; [by eapply process_application_model_raise|].
    eapply no_email_trans; [by eapply no_email_pdf | by eapply no_email_analyz].
Qed.

Lemma C2_failure_escapes_witness :
  (pdf_loader world_bad_pdf cv_file sys0
     = (Sys 1 {[ 0%nat ]}
          [EvTmpCreate 0; EvFileWrite "/tmp/tmp0/cv.pdf" "%PDF-1.4 ..."],
        Raise (Exn "PdfReadError" "EOF marker not found")) /\
   run world_bad_pdf 70
     = (Sys 1 {[ 0%nat ]}
          [EvTmpCreate 0; EvFileWrite "/tmp/tmp0/cv.pdf" "%PDF-1.4 ..."],
        Raise (Exn "PdfReadError" "EOF marker not found"))) /\
  (analyz_match world_model_down "Python, SQL, 5 years experience"
     "Python, SQL, 3+ years" (pdf_loader world_model_down cv_file sys0).1
     = ((run world_model_down 70).1, Raise (Exn "APIConnectionError" "Connection error.")) /\
   run world_model_down 70
     = ((run world_model_down 70).1, Raise (Exn "APIConnectionError" "Connection error.")) /\
   no_email sys0 (run world_model_down 70).1).
Proof.
  pose proof (C2_failure_escapes world_bad_pdf cv_file "Ada" "ada@example.org"
                "Data Engineer" "Python, SQL, 3+ years" 70 sys0) as [H1 _].
  pose proof (C2_failure_escapes world_model_down cv_file "Ada" "ada@example.org"
                "Data Engineer" "Python, SQL, 3+ years" 70 sys0) as [_ H2].
  split.
  - split; [vm_compute; reflexivity|].
    apply (H1 _ _ ltac:(vm_compute; reflexivity)).
  - split; [vm_compute; reflexivity|].
    apply (H2 (pdf_loader world_model_down cv_file sys0).1
              "Python, SQL, 5 years experience");
      vm_compute; reflexivity.
Defined.

(** ** The Notifier *)

Lemma success_fields n t mp (b ok : bool) msg a :
  success_result n t mp b ok msg a !! "success" = Some (VBool true) /\
  success_result n t mp b ok msg a !! "applicant_name" = Some (VStr n) /\
  success_result n t mp b ok msg a !! "job_title" = Some (VStr t) /\
  success_result n t mp b ok msg a !! "match_percentage" = Some (VInt mp) /\
  success_result n t mp b ok msg a !! "email_sent" = Some (VBool ok) /\
  success_result n t mp b ok msg a !! "email_message" = Some (VStr msg) /\
  success_result n t mp b ok msg a !! "analysis" = Some (VStr a).
Proof. repeat split; reflexivity. Qed.

(** C3: [send_email] returns a (success, message) pair on every input and
    whatever the relay does; a failure raised during the session comes back
    as [(False, "Failed to send email: ...")]; and a run of the Orchestrator
    that reaches the Notifier with a failing relay still returns a record,
    with [success = True], [email_sent = False] and a non-empty message. *)
Theorem C3_notifier_contains_failures w recipient_email subject body s :
  (exists s' ok msg,
     send_email w recipient_email subject body s = (s', Ret (ok, msg))) /\
  (forall s' e,
     smtp_session w (Message (EMAIL_SENDER w) recipient_email subject body) s
       = (s', Raise e) ->
     send_email w recipient_email subject body s
       = (s', Ret (false, "Failed to send email: " +:+ exn_str e))) /\
  (forall cv_file applicant_name job_title job_description match_threshold
          s0 s1 s2 cv_text analysis_text match_percentage recommendation s' e,
     pdf_loader w cv_file s0 = (s1, Ret cv_text) ->
     analyz_match w cv_text job_description s1
       = (s2, Ret (analysis_text, match_percentage, recommendation)) ->
     truthy analysis_text = true ->
     (subject, body)
       = email_content applicant_name job_title
           (is_match_of match_percentage match_threshold recommendation) ->
     s = composed s2 subject body ->
     smtp_session w (Message (EMAIL_SENDER w) recipient_email subject body) s
       = (s', Raise e) ->
     exists d m,
       process_application w cv_file applicant_name recipient_email job_title
         job_description match_threshold s0 = (s', Ret d) /\
       d !! "success" = Some (VBool true) /\
       d !! "email_sent" = Some (VBool false) /\
       d !! "email_message" = Some (VStr m) /\ m <> EmptyString).
Proof.
  assert (forall s' e,
     smtp_session w (Message (EMAIL_SENDER w) recipient_email subject body) s
       = (s', Raise e) ->
     send_email w recipient_email subject body s
       = (s', Ret (false, "Failed to send email: " +:+ exn_str e))) as Hfail.
  { intros s' e H. by rewrite send_email_cases, H. }
  split; [|split; [exact Hfail|]].
  - destruct (send_email_total w recipient_email subject body s)
      as (s' & ok & msg & H & _). by exists s', ok, msg.
  - intros cv_file applicant_name job_title job_description match_threshold
      s0 s1 s2 cv_text analysis_text match_percentage recommendation s' e
      Hpdf Han Htext Hcontent -> Hsession.
    destruct (process_application_success w cv_file applicant_name
                recipient_email job_title job_description match_threshold
                _ _ _ _ _ _ _ Hpdf Han Htext)
      as (s3 & ok & msg & Hsend & _ & Hrun).
    rewrite <- Hcontent in Hsend. simpl in Hsend.
    rewrite (Hfail _ _ Hsession) in Hsend. injection Hsend as <- <- <-.
    eexists _, _. split; [exact Hrun|].
    pose proof (success_fields applicant_name job_title match_percentage
      (is_match_of match_percentage match_threshold recommendation) false
      ("Failed to send email: " +:+ exn_str e) analysis_text)
      as (H1 & _ & _ & _ & H5 & H6 & _).
    repeat split; done.
Qed.

Lemma C3_notifier_contains_failures_witness :
  smtp_session world_relay_down
    (Message None "ada@example.org"
       (email_content "Ada" "Data Engineer" true).1
       (email_content "Ada" "Data Engineer" true).2)
    (composed (analyz_match world_relay_down "Python, SQL, 5 years experience"
                 "Python, SQL, 3+ years"
                 (pdf_loader world_relay_down cv_file sys0).1).1
       (email_content "Ada" "Data Engineer" true).1
       (email_content "Ada" "Data Engineer" true).2)
  = ((run world_relay_down 70).1,
     Raise (Exn "ConnectionRefusedError" "[Errno 111] Connection refused")) /\
  exists d m,
    run world_relay_down 70 = ((run world_relay_down 70).1, Ret d) /\
    d !! "success" = Some (VBool true) /\
    d !! "email_sent" = Some (VBool false) /\
    d !! "email_message" = Some (VStr m) /\ m <> EmptyString.
Proof.
  split; [vm_compute; reflexivity|].
  pose proof (C3_notifier_contains_failures world_relay_down "ada@example.org"
    (email_content "Ada" "Data Engineer" true).1
    (email_content "Ada" "Data Engineer" true).2
    (composed (analyz_match world_relay_down "Python, SQL, 5 years experience"
                 "Python, SQL, 3+ years"
                 (pdf_loader world_relay_down cv_file sys0).1).1
       (email_content "Ada" "Data Engineer" true).1
       (email_content "Ada" "Data Engineer" true).2)) as (_ & _ & H).
  apply (H cv_file "Ada" "Data Engineer" "Python, SQL, 3+ years" 70 sys0
           (pdf_loader world_relay_down cv_file sys0).1
           (analyz_match world_relay_down "Python, SQL, 5 years experience"
              "Python, SQL, 3+ years"
              (pdf_loader world_relay_down cv_file sys0).1).1
           "Python, SQL, 5 years experience" model_answer 88 "ACCEPT"
           (run world_relay_down 70).1
           (Exn "ConnectionRefusedError" "[Errno 111] Connection refused"));
    vm_compute; reflexivity.
Defined.

(** ** Parsing the recommendation *)

(** The examples of the specification. *)
Example recommendation_examples :
  parse_recommendation "Recommendation: ACCEPT" = Ret "ACCEPT" /\
  parse_recommendation "Strengths: we accept the profile as is" = Ret "ACCEPT" /\
  parse_recommendation "Strengths: solid SQL. Gaps: none." = Ret "REJECT" /\
  parse_recommendation "recommendation - we would Reject, not accept" = Ret "REJECT" /\
  parse_recommendation "skills do not accept substitutions" = Ret "ACCEPT" /\
  parse_recommendation "unacceptable" = Ret "REJECT".
Proof. repeat split; vm_compute; reflexivity. Qed.

(** C4: the four labeled patterns are tried in their listed order, all with
    IGNORECASE, and the first one that matches gives the result: its
    captured token in upper case, which is ACCEPT or REJECT.  When none
    matches, the result is ACCEPT exactly when the text holds the standalone
    word [accept] (any case, no word character on either side), and REJECT
    otherwise. *)
Theorem C4_recommendation_parsing (response_text : string) :
  labeled_recommendation_patterns
    = List.map (fun p => (p, true)) recommendation_patterns /\
  match first_match labeled_recommendation_patterns response_text with
  | Some m =>
      exists g, m_group1 m = Some g /\
        (upper g = "ACCEPT" \/ upper g = "REJECT") /\
        parse_recommendation response_text = Ret (upper g)
  | None =>
      (standalone_accept response_text /\
       parse_recommendation response_text = Ret "ACCEPT") \/
      (~ standalone_accept response_text /\
       parse_recommendation response_text = Ret "REJECT")
  end.
Proof.
  split; [reflexivity|].
  unfold parse_recommendation. rewrite rec_loop_first.
  change (List.map (fun p => (p, true)) recommendation_patterns)
    with labeled_recommendation_patterns.
  destruct (first_match labeled_recommendation_patterns response_text)
    as [m|] eqn:Hfirst.
  - (* a labeled pattern matched: its token, upper-cased *)
    destruct (first_match_recommendation _ _ Hfirst) as (g & Hg & Hverdict).
    exists g. rewrite Hg. simpl. done.
  - (* none matched: the word search decides *)
    simpl.
    destruct (re_search accept_word_pattern response_text true) as [m|] eqn:Hword.
    + left. split; [|done]. apply accept_search_iff. by rewrite Hword.
    + right. split; [|done]. intros Hstandalone.
      apply accept_search_iff in Hstandalone. rewrite Hword in Hstandalone.
      by destruct Hstandalone.
Qed.

(** ** Parsing the percentage *)

(** The examples of the specification, and the order of the fallbacks. *)
Example percentage_examples :
  parse_percentage "Match Percentage: 82" = Ret 82 /\
  parse_percentage "match score around 82%" = Ret 82 /\
  parse_percentage "no digits at all" = Ret 0 /\
  parse_percentage "match percentage: 61%" = Ret 61 /\
  parse_percentage "Match Percentage is about 61" = Ret 61 /\
  parse_percentage "Match Percentage: 007 of 100" = Ret 7 /\
  parse_percentage "Match Percentage: 5, later Match Percentage: 82" = Ret 5.
Proof. repeat split; vm_compute; reflexivity. Qed.




(** ** The parsing step returns, up to the digit limit of [int] *)




(** The defaults of the specification, on a text with no signal at all. *)
Example parsing_defaults :
  parse_response "The candidate looks fine." = Ret ("The candidate looks fine.", 0, "REJECT") /\
  parse_response EmptyString = Ret (EmptyString, 0, "REJECT") /\
  parse_response "I accept." = Ret ("I accept.", 0, "ACCEPT").
Proof. repeat split; vm_compute; reflexivity. Qed.

(** ** No upper bound on the percentage *)




(** ** The temporary directory of [pdf_loader] *)

(** On the success path the directory is removed again. *)
Lemma pdf_loader_cleans_on_success w pdf_file s s' text :
  tmp_ok s ->
  pdf_loader w pdf_file s = (s', Ret text) ->
  tmp_live s' = tmp_live s /\
  exists evs, trace s' = trace s ++ EvTmpCreate (tmp_next s) :: evs ++
                         [EvTmpCleanup (tmp_next s)].
Proof.
  intros Hok H. pose proof (pdf_loader_cases w pdf_file s) as Hc. simpl in Hc.
  rewrite Hc in H. clear Hc.
  destruct (open_wb w _); [discriminate|].
  destruct (PdfReader w _) as [pages|]; [|discriminate].
  destruct (extract_pages pages EmptyString); [|discriminate].
  injection H as <- _. simpl. split.
  - assert (tmp_next s ∉ tmp_live s) as Hfresh
      by (intros Hin; apply Hok in Hin; lia).
    apply set_eq. intros x.
    rewrite elem_of_difference, elem_of_union, elem_of_singleton.
    split; [by intros [[?|?] ?] | intros Hx; split; [by right | by intros ->]].
  - eexists [_]. by rewrite <- !List.app_assoc.
Qed.

(** On every path where something raises after the directory was created,
    [pdf_loader] leaves it behind: [cleanup] is never reached. *)
Lemma pdf_loader_leaves_on_failure w pdf_file s s' e :
  pdf_loader w pdf_file s = (s', Raise e) ->
  (tmp_next s ∈ tmp_live s') /\
  (EvTmpCleanup (tmp_next s) ∉ drop (List.length (trace s)) (trace s')).
Proof.
  intros H. pose proof (pdf_loader_cases w pdf_file s) as Hc. simpl in Hc.
  rewrite Hc in H. clear Hc.
  destruct (open_wb w _);
    [|destruct (PdfReader w _) as [pages|];
      [destruct (extract_pages pages EmptyString); [discriminate|]|]];
    injection H as <- _; simpl; (split; [set_solver|]);
    rewrite <- ?List.app_assoc, drop_app_length; simpl;
    rewrite ?elem_of_cons, elem_of_nil; intros H; intuition discriminate.
Qed.

(** C6, on bytes that are not a PDF: [PdfReader] raises, [pdf_loader] lets
    the exception through, and the temporary directory it created is still
    there when it exits; no cleanup was run. *)
Theorem C6_tmp_dir_left_on_failure :
  pdf_loader world_bad_pdf (Upload "cv.pdf" "not a pdf") sys0
  = (Sys 1 {[ 0%nat ]}
       [EvTmpCreate 0; EvFileWrite "/tmp/tmp0/cv.pdf" "not a pdf"],
     Raise (Exn "PdfReadError" "EOF marker not found")) /\
  (0%nat ∈ tmp_live (pdf_loader world_bad_pdf (Upload "cv.pdf" "not a pdf") sys0).1) /\
  (EvTmpCleanup 0 ∉ trace (pdf_loader world_bad_pdf (Upload "cv.pdf" "not a pdf") sys0).1) /\
  tmp_live (pdf_loader world_ok (Upload "cv.pdf" "%PDF-1.4 ...") sys0).1 = ∅.
Proof.
  split; [vm_compute; reflexivity|].
  split; [vm_compute; reflexivity|].
  split; [|vm_compute; reflexivity].
  intros H. vm_compute in H.
  repeat (apply elem_of_cons in H as [H|H]; [discriminate H|]).
  by apply elem_of_nil in H.
Qed.

(** ** The Notification Composer *)

Lemma process_application_emails w cv_file applicant_name applicant_email
    job_title job_description match_threshold s s' d r :
  process_application w cv_file applicant_name applicant_email job_title
    job_description match_threshold s = (s', Ret d) ->
  d !! "recommendation" = Some r ->
  exists is_match : bool,
    r = VStr (if is_match then "Accept" else "Reject") /\
    emails_composed s'
      = emails_composed s ++ [email_content applicant_name job_title is_match] /\
    exists ms,
      emails_sent s' = emails_sent s ++ ms /\
      Forall (fun m =>
                (msg_subject m, msg_body m)
                = email_content applicant_name job_title is_match) ms.
Proof.
  intros Hrun Hrec.
  apply process_application_inv in Hrun
    as [(e & _ & [=])|(s1 & cv_text & Hpdf &
        [(e & _ & [=])|[(mp & rec & _ & [= ->])|
         (s2 & text & mp & rec & ok & msg & Han & _ & Hsend & _ & [= ->])]])];
    [vm_compute in Hrec; discriminate Hrec|].
  rewrite success_recommendation in Hrec. injection Hrec as <-.
  exists (is_match_of mp match_threshold rec). split; [done|].
  destruct (no_email_trans _ _ _ (no_email_pdf _ _ _ _ _ Hpdf)
              (no_email_analyz _ _ _ _ _ _ Han)) as [Hc Hs].
  set (content := email_content applicant_name job_title
                    (is_match_of mp match_threshold rec)) in *.
  pose proof (send_email_composed w applicant_email content.1 content.2
                (composed s2 content.1 content.2)) as Hc'.
  pose proof (send_email_sent w applicant_email content.1 content.2
                (composed s2 content.1 content.2)) as (ms & Hs' & Hall).
  rewrite Hsend in Hc', Hs'. simpl in Hc', Hs'.
  unfold composed in Hc', Hs'.
  rewrite emails_composed_snoc in Hc'. rewrite emails_sent_snoc in Hs'.
  rewrite List.app_nil_r in Hs'. split.
  - rewrite Hc', Hc. by destruct content.
  - exists ms. split; [by rewrite Hs', Hs|].
    eapply Forall_impl; [exact Hall|]. intros m <-. simpl. by destruct content.
Qed.

(** C8: each branch of [email_content] is one fixed template around the
    job title and the applicant's name, taken as they are; and in the
    Orchestrator the email composed and sent depends on the decision, the
    name and the title only: two runs that agree on these three compose the
    same subject and body, whatever the world, the CV, the recipient, the
    job description and the threshold are. *)
Theorem C8_composer_pure :
  (exists subject_head body_head body_mid body_tail,
     forall applicant_name job_title,
       email_content applicant_name job_title true
       = (subject_head +:+ job_title,
          body_head +:+ applicant_name +:+ body_mid +:+ job_title +:+ body_tail)) /\
  (exists subject_head body_head body_mid body_tail,
     forall applicant_name job_title,
       email_content applicant_name job_title false
       = (subject_head +:+ job_title,
          body_head +:+ applicant_name +:+ body_mid +:+ job_title +:+ body_tail)) /\
  (forall applicant_name job_title
          w1 cv_file1 applicant_email1 job_description1 match_threshold1 s1 s1' d1
          w2 cv_file2 applicant_email2 job_description2 match_threshold2 s2 s2' d2
          decision,
     process_application w1 cv_file1 applicant_name applicant_email1 job_title
       job_description1 match_threshold1 s1 = (s1', Ret d1) ->
     process_application w2 cv_file2 applicant_name applicant_email2 job_title
       job_description2 match_threshold2 s2 = (s2', Ret d2) ->
     d1 !! "recommendation" = Some decision ->
     d2 !! "recommendation" = Some decision ->
     exists subject body ms1 ms2,
       emails_composed s1' = emails_composed s1 ++ [(subject, body)] /\
       emails_composed s2' = emails_composed s2 ++ [(subject, body)] /\
       emails_sent s1' = emails_sent s1 ++ ms1 /\
       emails_sent s2' = emails_sent s2 ++ ms2 /\
       Forall (fun m => msg_subject m = subject /\ msg_body m = body) (ms1 ++ ms2)).
Proof.
  split; [|split].
  - eexists _, _, _, _. intros applicant_name job_title. reflexivity.
  - eexists _, _, _, _. intros applicant_name job_title. reflexivity.
  - intros applicant_name job_title
      w1 cv_file1 applicant_email1 job_description1 match_threshold1 s1 s1' d1
      w2 cv_file2 applicant_email2 job_description2 match_threshold2 s2 s2' d2
      decision Hrun1 Hrun2 Hd1 Hd2.
    destruct (process_application_emails _ _ _ _ _ _ _ _ _ _ _ Hrun1 Hd1)
      as (b1 & Hb1 & Hc1 & ms1 & Hs1 & Hall1).
    destruct (process_application_emails _ _ _ _ _ _ _ _ _ _ _ Hrun2 Hd2)
      as (b2 & Hb2 & Hc2 & ms2 & Hs2 & Hall2).
    assert (b2 = b1) as -> by (destruct b1, b2; congruence).
    destruct (email_content applicant_name job_title b1) as [subject body].
    exists subject, body, ms1, ms2. repeat split; try done.
    apply Forall_app. split; (eapply Forall_impl; [eassumption|]);
      intros m [= -> ->]; done.
Qed.

Lemma C8_composer_pure_witness :
  exists subject body ms1 ms2,
    emails_composed (run world_ok 70).1 = emails_composed sys0 ++ [(subject, body)] /\
    emails_composed (run (world_answer_relay_down "I accept.") 95).1
      = emails_composed sys0 ++ [(subject, body)] /\
    emails_sent (run world_ok 70).1 = emails_sent sys0 ++ ms1 /\
    emails_sent (run (world_answer_relay_down "I accept.") 95).1
      = emails_sent sys0 ++ ms2 /\
    Forall (fun m => msg_subject m = subject /\ msg_body m = body) (ms1 ++ ms2).
Proof.
  destruct C8_composer_pure as (_ & _ & H).
  apply (H "Ada" "Data Engineer"
           world_ok cv_file "ada@example.org" "Python, SQL, 3+ years" 70 sys0
           (run world_ok 70).1
           (success_result "Ada" "Data Engineer" 88 true true
              "Email sent successfully!" model_answer)
           (world_answer_relay_down "I accept.") cv_file "ada@example.org"
           "Python, SQL, 3+ years" 95 sys0
           (run (world_answer_relay_down "I accept.") 95).1
           (success_result "Ada" "Data Engineer" 0 true false
              "Failed to send email: [Errno 111] Connection refused" "I accept.")
           (VStr "Accept"));
    vm_compute; reflexivity.
Defined.

(** ** The failure record *)

Lemma failure_fields :
  dom failure_result = {[ "success"; "message" ]} /\
  failure_result !! "success" = Some (VBool false) /\
  failure_result !! "message" = Some (VStr "Failed to analyze the CV.") /\
  failure_result !! "applicant_name" = None /\
  failure_result !! "job_title" = None /\
  failure_result !! "match_percentage" = None /\
  failure_result !! "recommendation" = None /\
  failure_result !! "email_sent" = None /\
  failure_result !! "email_message" = None /\
  failure_result !! "analysis" = None.
Proof. split; [unfold failure_result; set_solver | repeat split; reflexivity]. Qed.

(** C10: a returned record has [success = False] only when the model's
    response text is empty; the record then holds the keys [success] and
    [message] and no other, and nothing was composed or sent.  Conversely an
    empty response text always ends in that record. *)
Theorem C10_failure_record w cv_file applicant_name applicant_email job_title
    job_description match_threshold s :
  (forall s' d,
     process_application w cv_file applicant_name applicant_email job_title
       job_description match_threshold s = (s', Ret d) ->
     d !! "success" = Some (VBool false) ->
     (exists s1 cv_text response,
        pdf_loader w cv_file s = (s1, Ret cv_text) /\
        chain_invoke w cv_text job_description = Ret response /\
        response_text_of response = EmptyString) /\
     d = failure_result /\
     dom d = {[ "success"; "message" ]} /\
     d !! "applicant_name" = None /\ d !! "match_percentage" = None /\
     d !! "recommendation" = None /\ d !! "email_sent" = None /\
     d !! "analysis" = None /\
     no_email s s') /\
  (forall s1 cv_text response,
     pdf_loader w cv_file s = (s1, Ret cv_text) ->
     chain_invoke w cv_text job_description = Ret response ->
     response_text_of response = EmptyString ->
     exists s',
       process_application w cv_file applicant_name applicant_email job_title
         job_description match_threshold s = (s', Ret failure_result) /\
       no_email s s').
Proof.
  split.
  - intros s' d Hrun Hsuccess.
    apply process_application_inv in Hrun
      as [(e & _ & [=])|(s1 & cv_text & Hpdf &
          [(e & _ & [=])|[(mp & rec & Han & [= ->])|
           (s2 & text & mp & rec & ok & msg & _ & _ & _ & _ & [= ->])]])];
      [|vm_compute in Hsuccess; discriminate Hsuccess].
    pose proof failure_fields as (Hdom & _ & _ & ? & _ & ? & ? & ? & _ & ?).
    assert (no_email s s') as [Hcomposed Hsent]
      by (eapply no_email_trans; [by eapply no_email_pdf | by eapply no_email_analyz]).
    split; [|repeat split; done].
    apply analyz_match_text in Han as (response & ? & ? & _).
    by exists s1, cv_text, response.
  - intros s1 cv_text response Hpdf Hinvoke Htext.
    pose proof (analyz_match_cases w cv_text job_description s1) as Han.
    rewrite Hinvoke, Htext in Han.
    change (parse_response EmptyString) with (Ret (EmptyString, 0, "REJECT") : outcome _) in Han.
    eexists. split; [by eapply process_application_empty|].
    eapply no_email_trans; [by eapply no_email_pdf | by eapply no_email_analyz].
Qed.

Lemma C10_failure_record_witness :
  run (world_answer EmptyString) 70 = ((run (world_answer EmptyString) 70).1, Ret failure_result) /\
  failure_result !! "success" = Some (VBool false) /\
  dom failure_result = {[ "success"; "message" ]} /\
  no_email sys0 (run (world_answer EmptyString) 70).1.
Proof.
  destruct (C10_failure_record (world_answer EmptyString) cv_file "Ada" "ada@example.org"
              "Data Engineer" "Python, SQL, 3+ years" 70 sys0) as [H _].
  destruct (H (run (world_answer EmptyString) 70).1 failure_result
              ltac:(vm_compute; reflexivity) ltac:(reflexivity))
    as (_ & _ & Hdom & _ & _ & _ & _ & _ & Hno).
  split; [vm_compute; reflexivity|]. split; [reflexivity|].
  split; [exact Hdom | exact Hno].
Defined.
